(** * Shallow embedding of xgfone/go-atexit (src/atexit.go, src/init.go)

    The package keeps two process-wide registries of prioritised callbacks:
    [exitfuncs] (run by [execute], highest priority first) and [initfuncs]
    (run by [Init], lowest priority first).  Package variables are the fields
    of [state]; every Go function is a computation in a small
    state/panic/trace monad [M].  A Go panic that is not recovered is the
    [Panicking] result and unwinds through [bind]. *)

From Stdlib Require Import ZArith List String Ascii Bool Sorting.Sorted Sorting.Permutation Lia.
Import ListNotations.
Open Scope string_scope.
Open Scope list_scope.
Open Scope Z_scope.
#[local] Set Warnings "-register-all".

(** ** Callbacks

    A Go [func()] is either nil ([None]) or a closure, whose body we write in
    a small statement language covering what the repository's callbacks and
    tests do: write to a shared buffer or stdout, panic, call [Executed], and
    register further exit callbacks (as the package example does). *)

Inductive stmt : Type :=
| Write (s : string)                                  (* buf.WriteString(s) / fmt.Print *)
| Panic (msg : string)                                (* panic(msg) *)
| CallExecuted                                        (* _ = atexit.Executed() *)
| CallOnExitWithPriority (p : Z) (f : option (list stmt))
| CallOnExit (f : option (list stmt)).

Definition func : Type := option (list stmt).

(** [type priofunc struct { Func func(); Prio int }] *)
Record priofunc : Type := mkPriofunc { Func : func; Prio : Z }.

(** Observable events: calls of the registered callbacks, results of
    [Executed()] seen by a callback, [cancel()], [close(executech)] and the
    call of [ExitFunc(code)]. *)
Inductive event : Type :=
| EvCancel
| EvClose
| EvCallExit (pf : priofunc)
| EvCallInit (pf : priofunc)
| EvExecuted (b : bool)
| EvExitFunc (code : Z).

(** The package variables of atexit.go and init.go.  [buf] is the shared
    output (the tests' [bytes.Buffer] or stdout). *)
Record state : Type := mkState {
  executed : Z;                 (* uint32 *)
  priority : Z;                 (* int64, starts at 99 *)
  executech_closed : bool;      (* executech = make(chan struct{}) *)
  ctx_cancelled : bool;         (* ctx, cancel = context.WithCancel(...) *)
  exitfuncs : list priofunc;
  initprio : Z;                 (* int64, starts at 99 *)
  initfuncs : list priofunc;
  buf : string
}.

Definition initial_state : state :=
  {| executed := 0; priority := 99; executech_closed := false;
     ctx_cancelled := false; exitfuncs := []; initprio := 99;
     initfuncs := []; buf := "" |}.

Definition set_executed (v : Z) (s : state) : state :=
  {| executed := v; priority := priority s; executech_closed := executech_closed s;
     ctx_cancelled := ctx_cancelled s; exitfuncs := exitfuncs s; initprio := initprio s;
     initfuncs := initfuncs s; buf := buf s |}.
Definition set_priority (v : Z) (s : state) : state :=
  {| executed := executed s; priority := v; executech_closed := executech_closed s;
     ctx_cancelled := ctx_cancelled s; exitfuncs := exitfuncs s; initprio := initprio s;
     initfuncs := initfuncs s; buf := buf s |}.
Definition set_executech_closed (v : bool) (s : state) : state :=
  {| executed := executed s; priority := priority s; executech_closed := v;
     ctx_cancelled := ctx_cancelled s; exitfuncs := exitfuncs s; initprio := initprio s;
     initfuncs := initfuncs s; buf := buf s |}.
Definition set_ctx_cancelled (v : bool) (s : state) : state :=
  {| executed := executed s; priority := priority s; executech_closed := executech_closed s;
     ctx_cancelled := v; exitfuncs := exitfuncs s; initprio := initprio s;
     initfuncs := initfuncs s; buf := buf s |}.
Definition set_exitfuncs (v : list priofunc) (s : state) : state :=
  {| executed := executed s; priority := priority s; executech_closed := executech_closed s;
     ctx_cancelled := ctx_cancelled s; exitfuncs := v; initprio := initprio s;
     initfuncs := initfuncs s; buf := buf s |}.
Definition set_initprio (v : Z) (s : state) : state :=
  {| executed := executed s; priority := priority s; executech_closed := executech_closed s;
     ctx_cancelled := ctx_cancelled s; exitfuncs := exitfuncs s; initprio := v;
     initfuncs := initfuncs s; buf := buf s |}.
Definition set_initfuncs (v : list priofunc) (s : state) : state :=
  {| executed := executed s; priority := priority s; executech_closed := executech_closed s;
     ctx_cancelled := ctx_cancelled s; exitfuncs := exitfuncs s; initprio := initprio s;
     initfuncs := v; buf := buf s |}.
Definition set_buf (v : string) (s : state) : state :=
  {| executed := executed s; priority := priority s; executech_closed := executech_closed s;
     ctx_cancelled := ctx_cancelled s; exitfuncs := exitfuncs s; initprio := initprio s;
     initfuncs := initfuncs s; buf := v |}.

(** ** The state / panic / trace monad *)

Inductive result (A : Type) : Type :=
| Ok (a : A)
| Panicking (msg : string).
Arguments Ok {A} a.
Arguments Panicking {A} msg.

Definition M (A : Type) : Type := state -> result A * state * list event.

Definition ret {A} (a : A) : M A := fun s => (Ok a, s, []).

Definition bind {A B} (m : M A) (k : A -> M B) : M B := fun s =>
  match m s with
  | (Ok a, s1, t1) => let '(r, s2, t2) := k a s1 in (r, s2, t1 ++ t2)
  | (Panicking msg, s1, t1) => (Panicking msg, s1, t1)
  end.

Notation "x <- m ;; k" := (bind m (fun x => k))
  (at level 61, m at next level, right associativity).
Notation "m ;; k" := (bind m (fun _ : unit => k))
  (at level 61, right associativity).

Definition gopanic {A} (msg : string) : M A := fun s => (Panicking msg, s, []).
Definition get : M state := fun s => (Ok s, s, []).
Definition modify (f : state -> state) : M unit := fun s => (Ok tt, f s, []).
Definition emit (e : event) : M unit := fun s => (Ok tt, s, [e]).

(** ** Deferred calls and recover

    The Go specification (section "Handling panics") says that the return
    value of [recover] is nil, and the panicking sequence goes on, when
    recover "was not called directly by a deferred function".  A deferred
    closure [defer func() { recover() }()] calls it directly and stops the
    panic; the statement [defer recover()] makes the builtin itself the
    deferred call, no deferred function calls it, and the panic goes on. *)
Inductive deferred : Type :=
| DeferBuiltinRecover           (* defer recover() *)
| DeferClosureCallingRecover.   (* defer func() { recover() }() *)

Definition run_deferred (d : deferred) (r : result unit) : result unit :=
  match d, r with
  | DeferClosureCallingRecover, Panicking _ => Ok tt
  | _, _ => r
  end.

Definition with_defer (d : deferred) (body : M unit) : M unit := fun s =>
  let '(r, s', t) := body s in (run_deferred d r, s', t).

(** ** sort.Stable

    [sort.Stable] on [priofuncs] ([Less] compares [Prio] with [<]).  For up
    to 20 elements Go's [stable] is exactly [insertionSort(data, 0, n)]: the
    element at position [i] is swapped to the left while
    [Less(j, j-1)].  [sink x racc] is that inner loop, with the already sorted
    prefix [data[0:i]] held in reverse order in [racc].  (For longer slices Go
    merges sorted blocks with [symMerge]; a stable sort by a key has a unique
    result, so it is the same list.) *)
Definition Less (a b : priofunc) : bool := Prio a <? Prio b.

Fixpoint sink (x : priofunc) (racc : list priofunc) : list priofunc :=
  match racc with
  | [] => [x]
  | y :: r => if Less x y then y :: sink x r else x :: racc
  end.

Definition insertionSort (l : list priofunc) : list priofunc :=
  rev (fold_left (fun racc x => sink x racc) l []).

Definition sort_Stable (l : list priofunc) : list priofunc := insertionSort l.

(** int64 wrap-around of [atomic.AddInt64] *)
Definition wrap64 (z : Z) : Z := Z.modulo (z + 2 ^ 63) (2 ^ 64) - 2 ^ 63.

(** ** atexit.go: registration *)

(** [func OnExitWithPriority(priority int, callback func())] *)
Definition OnExitWithPriority (p : Z) (callback : func) : M unit :=
  match callback with
  | None => gopanic "atexit.OnExitWithPriority: callback function is nil"
  | Some _ =>
      modify (fun s =>
        set_exitfuncs (sort_Stable (exitfuncs s ++ [{| Prio := p; Func := callback |}])) s)
  end.

(** [atomic.AddInt64(&priority, 1)] *)
Definition AddInt64_priority : M Z := fun s =>
  let v := wrap64 (priority s + 1) in (Ok v, set_priority v s, []).

(** [func OnExit(callback func())] *)
Definition OnExit (callback : func) : M unit :=
  p <- AddInt64_priority ;; OnExitWithPriority p callback.

(** [func Executed() bool { return atomic.LoadUint32(&executed) == 1 }] *)
Definition Executed : M bool := fun s => (Ok (executed s =? 1), s, []).

(** ** Running a callback *)

Definition run_stmt (st : stmt) : M unit :=
  match st with
  | Write str => modify (fun s => set_buf (buf s ++ str)%string s)
  | Panic msg => gopanic msg
  | CallExecuted => b <- Executed ;; emit (EvExecuted b)
  | CallOnExitWithPriority p f => OnExitWithPriority p f
  | CallOnExit f => OnExit f
  end.

Fixpoint run_body (b : list stmt) : M unit :=
  match b with
  | [] => ret tt
  | st :: rest => run_stmt st ;; run_body rest
  end.

(** [f()]: calling a nil func is a run-time panic. *)
Definition call (f : func) : M unit :=
  match f with
  | None => gopanic "runtime error: invalid memory address or nil pointer dereference"
  | Some b => run_body b
  end.

(** ** atexit.go: execution *)

(** [atomic.CompareAndSwapUint32(&executed, 0, 1)] *)
Definition CompareAndSwap_executed : M bool := fun s =>
  if executed s =? 0 then (Ok true, set_executed 1 s, []) else (Ok false, s, []).

Definition cancel : M unit := modify (set_ctx_cancelled true) ;; emit EvCancel.

Definition close_executech : M unit := modify (set_executech_closed true) ;; emit EvClose.

(** [for _len := len(exitfuncs) - 1; _len >= 0; _len-- {
       func(f func()) { defer recover(); f() }(exitfuncs[_len].Func) }]
    [execute_loop (S k')] is the iteration with [_len = k']; the bound is
    computed once, [exitfuncs] is read again at each iteration. *)
Fixpoint execute_loop (k : nat) : M unit :=
  match k with
  | O => ret tt
  | S k' =>
      s <- get ;;
      match nth_error (exitfuncs s) k' with
      | None => gopanic "runtime error: index out of range"
      | Some pf => emit (EvCallExit pf) ;; with_defer DeferBuiltinRecover (call (Func pf))
      end ;;
      execute_loop k'
  end.

(** [func execute()] *)
Definition execute : M unit :=
  won <- CompareAndSwap_executed ;;
  if won then
    cancel ;;
    s <- get ;;
    execute_loop (List.length (exitfuncs s)) ;;
    close_executech
  else ret tt.

(** [func Execute() { execute() }] *)
Definition Execute : M unit := execute.

(** [func Exit(code int) { execute(); ExitFunc(code) }]; [ExitFunc] is a
    replaceable variable, its call is an event. *)
Definition Exit (code : Z) : M unit := execute ;; emit (EvExitFunc code).

(** [func Wait() { <-executech }] returns exactly when [executech] is closed. *)
Definition Wait_returns (s : state) : bool := executech_closed s.

(** ** init.go *)

(** [func RegisterInitWithPriority(priority int, init func())] *)
Definition RegisterInitWithPriority (p : Z) (init : func) : M unit :=
  modify (fun s =>
    set_initfuncs (sort_Stable (initfuncs s ++ [{| Prio := p; Func := init |}])) s).

Definition AddInt64_initprio : M Z := fun s =>
  let v := wrap64 (initprio s + 1) in (Ok v, set_initprio v s, []).

(** [func RegisterInit(init func())] *)
Definition RegisterInit (init : func) : M unit :=
  p <- AddInt64_initprio ;; RegisterInitWithPriority p init.

Definition OnInit (init : func) : M unit := RegisterInit init.
Definition OnInitWithPriority (p : Z) (init : func) : M unit := RegisterInitWithPriority p init.

(** [for i, _len := 0, len(initfuncs); i < _len; i++ { initfuncs[i].Func() }]:
    [init_loop i fuel] runs the iterations [i .. i + fuel - 1]. *)
Fixpoint init_loop (i fuel : nat) : M unit :=
  match fuel with
  | O => ret tt
  | S fuel' =>
      s <- get ;;
      match nth_error (initfuncs s) i with
      | None => gopanic "runtime error: index out of range"
      | Some pf => emit (EvCallInit pf) ;; call (Func pf)
      end ;;
      init_loop (S i) fuel'
  end.

(** [func Init()] *)
Definition Init : M unit := s <- get ;; init_loop 0 (List.length (initfuncs s)).

(** ** Programs: sequences of calls of the package API from one goroutine *)

Inductive op : Type :=
| OpOnExitWithPriority (p : Z) (f : func)
| OpOnExit (f : func)
| OpRegisterInitWithPriority (p : Z) (f : func)
| OpRegisterInit (f : func)
| OpInit
| OpExecute
| OpExit (code : Z).

Definition run_op (o : op) : M unit :=
  match o with
  | OpOnExitWithPriority p f => OnExitWithPriority p f
  | OpOnExit f => OnExit f
  | OpRegisterInitWithPriority p f => RegisterInitWithPriority p f
  | OpRegisterInit f => RegisterInit f
  | OpInit => Init
  | OpExecute => Execute
  | OpExit code => Exit code
  end.

Fixpoint run_ops (ops : list op) : M unit :=
  match ops with
  | [] => ret tt
  | o :: rest => run_op o ;; run_ops rest
  end.

(** The exit callbacks called in a trace, in order. *)
Fixpoint exit_calls (t : list event) : list priofunc :=
  match t with
  | [] => []
  | EvCallExit pf :: t' => pf :: exit_calls t'
  | _ :: t' => exit_calls t'
  end.

Definition res_of {A} (x : result A * state * list event) : result A := fst (fst x).
Definition st_of {A} (x : result A * state * list event) : state := snd (fst x).
Definition tr_of {A} (x : result A * state * list event) : list event := snd x.

(** [fmt.Println(s)] *)
Definition Println (s : string) : stmt := Write (s ++ String (ascii_of_nat 10) "")%string.

(** ** Reasoning vocabulary *)

Definition prio_le (a b : priofunc) : Prop := Prio a <= Prio b.

(** Inserting one element into a sorted registry, as the swap loop of
    [insertionSort] does for the last element. *)
Fixpoint ins (x : priofunc) (l : list priofunc) : list priofunc :=
  match l with
  | [] => [x]
  | y :: l' => if Less x y then x :: l else y :: ins x l'
  end.

Definition prio_is (q : Z) (pf : priofunc) : bool := Prio pf =? q.

(** ** Lemmas on sort.Stable *)

Section SortStable.

Lemma SS_app_inv (l1 l2 : list priofunc) :
  StronglySorted prio_le (l1 ++ l2) ->
  StronglySorted prio_le l1 /\ StronglySorted prio_le l2 /\ (forall a b, In a l1 -> In b l2 -> prio_le a b).
Proof.
  induction l1 as [|a l1 IH]; simpl; intros H.
  - repeat split; [constructor | exact H | contradiction].
  - apply StronglySorted_inv in H as [H1 H2].
    destruct (IH H1) as (S1 & S2 & X).
    rewrite Forall_forall in H2.
    repeat split; auto.
    + constructor; auto. apply Forall_forall. intros y Hy. apply H2, in_or_app; auto.
    + intros a' b [<-|Ha] Hb; auto. apply H2, in_or_app; auto.
Qed.

Lemma sink_all_le (x : priofunc) (racc : list priofunc) :
  (forall z, In z racc -> Prio z <= Prio x) -> sink x racc = x :: racc.
Proof.
  destruct racc as [|y r]; simpl; intros H; [reflexivity|].
  unfold Less. specialize (H y (or_introl eq_refl)).
  destruct (Prio x <? Prio y) eqn:E; [apply Z.ltb_lt in E; lia | reflexivity].
Qed.

Lemma fold_sink_sorted (l : list priofunc) :
  StronglySorted prio_le l -> fold_left (fun racc x => sink x racc) l [] = rev l.
Proof.
  induction l as [|y l IH] using rev_ind; intros H; [reflexivity|].
  apply SS_app_inv in H as (H1 & _ & X).
  rewrite fold_left_app, IH by exact H1. simpl.
  rewrite rev_app_distr. simpl. apply sink_all_le.
  intros z Hz. apply in_rev in Hz. apply (X z y Hz (or_introl eq_refl)).
Qed.

Lemma ins_app_gt (x y : priofunc) (l : list priofunc) :
  Prio x < Prio y -> ins x (l ++ [y]) = ins x l ++ [y].
Proof.
  intros Hxy. induction l as [|z l IH]; simpl.
  - unfold Less. destruct (Prio x <? Prio y) eqn:E; [reflexivity|].
    apply Z.ltb_ge in E; lia.
  - destruct (Less x z); [reflexivity|]. rewrite IH. reflexivity.
Qed.

Lemma ins_all_le (x : priofunc) (l : list priofunc) :
  Forall (fun z => Prio z <= Prio x) l -> ins x l = l ++ [x].
Proof.
  induction l as [|z l IH]; simpl; intros H; [reflexivity|].
  inversion H as [|? ? Hz Hl]; subst.
  unfold Less. destruct (Prio x <? Prio z) eqn:E; [apply Z.ltb_lt in E; lia|].
  rewrite IH by exact Hl. reflexivity.
Qed.

Lemma rev_sink_sorted (x : priofunc) (l : list priofunc) :
  StronglySorted prio_le l -> rev (sink x (rev l)) = ins x l.
Proof.
  induction l as [|y l IH] using rev_ind; intros H; [reflexivity|].
  pose proof H as H0.
  apply SS_app_inv in H as (H1 & _ & X).
  rewrite rev_app_distr. simpl. unfold Less at 1.
  destruct (Prio x <? Prio y) eqn:E.
  - apply Z.ltb_lt in E. simpl. rewrite IH by exact H1.
    rewrite ins_app_gt by exact E. reflexivity.
  - apply Z.ltb_ge in E. simpl. rewrite rev_involutive.
    rewrite ins_all_le; [reflexivity|].
    apply Forall_forall. intros z Hz. apply in_app_or in Hz as [Hz|[<-|[]]]; [|lia].
    specialize (X z y Hz (or_introl eq_refl)). unfold prio_le in X. lia.
Qed.

Lemma sort_Stable_app (x : priofunc) (l : list priofunc) :
  StronglySorted prio_le l -> sort_Stable (l ++ [x]) = ins x l.
Proof.
  intros H. unfold sort_Stable, insertionSort.
  rewrite fold_left_app, fold_sink_sorted by exact H. simpl.
  apply rev_sink_sorted, H.
Qed.

Lemma ins_In (x z : priofunc) (l : list priofunc) :
  In z (ins x l) <-> x = z \/ In z l.
Proof.
  induction l as [|y l IH]; simpl; [tauto|].
  destruct (Less x y); simpl; [tauto|]. rewrite IH. tauto.
Qed.

Lemma ins_sorted (x : priofunc) (l : list priofunc) : StronglySorted prio_le l -> StronglySorted prio_le (ins x l).
Proof.
  induction l as [|y l IH]; simpl; intros H.
  - repeat constructor.
  - apply StronglySorted_inv in H as [H1 H2].
    unfold Less. destruct (Prio x <? Prio y) eqn:E.
    + apply Z.ltb_lt in E. constructor; [constructor; auto|].
      constructor; [unfold prio_le; lia|].
      eapply Forall_impl; [|exact H2]. unfold prio_le. intros a Ha. lia.
    + apply Z.ltb_ge in E. constructor; [apply IH, H1|].
      apply Forall_forall. intros z Hz. apply ins_In in Hz as [<-|Hz].
      * unfold prio_le. lia.
      * rewrite Forall_forall in H2. auto.
Qed.

Lemma ins_length (x : priofunc) (l : list priofunc) :
  List.length (ins x l) = S (List.length l).
Proof.
  induction l as [|y l IH]; simpl; [reflexivity|].
  destruct (Less x y); simpl; [reflexivity|]. rewrite IH. reflexivity.
Qed.

End SortStable.

(** ** Lemmas on prefixes of the registry *)

Lemma Forall_firstn_shorter {A} (P : A -> Prop) (n : nat) (l : list A) :
  Forall P (firstn (S n) l) -> Forall P (firstn n l).
Proof.
  revert l. induction n as [|n IH]; intros [|a l]; simpl; intros H; auto.
  inversion H; subst. constructor; auto.
Qed.

Lemma firstn_S_nth_error {A} (k : nat) (l : list A) (a : A) :
  nth_error l k = Some a -> firstn (S k) l = firstn k l ++ [a].
Proof.
  revert l. induction k as [|k IH]; intros [|b l] H; simpl in H; try discriminate.
  - injection H as ->. reflexivity.
  - change (b :: firstn (S k) l = b :: (firstn k l ++ [a])). rewrite (IH l H). reflexivity.
Qed.

Lemma ins_firstn (x : priofunc) (p : Z) (m : nat) (l : list priofunc) :
  (m < List.length l)%nat ->
  Forall (fun z => Prio z <= p) (firstn (S m) l) ->
  Forall (fun z => Prio z <= p) (firstn (S m) (ins x l)).
Proof.
  revert m. induction l as [|y l IH]; simpl; intros m Hm H; [lia|].
  inversion H as [|? ? Hy Hl]; subst.
  unfold Less. destruct (Prio x <? Prio y) eqn:E.
  - apply Z.ltb_lt in E. simpl. constructor; [lia|].
    destruct m as [|m]; simpl; constructor; auto.
    apply Forall_firstn_shorter; exact Hl.
  - simpl. constructor; [exact Hy|].
    destruct m as [|m]; simpl; [constructor|].
    apply IH; [lia | exact Hl].
Qed.

Lemma SS_firstn_nth (l : list priofunc) (k : nat) (a : priofunc) :
  StronglySorted prio_le l -> nth_error l k = Some a ->
  Forall (fun z => Prio z <= Prio a) (firstn (S k) l).
Proof.
  revert k. induction l as [|y l IH]; intros k H Hk; [destruct k; discriminate|].
  apply StronglySorted_inv in H as [H1 H2].
  destruct k as [|k]; simpl in *.
  - injection Hk as ->. repeat constructor. lia.
  - constructor; [|apply IH; auto].
    rewrite Forall_forall in H2. apply (H2 a). eapply nth_error_In; exact Hk.
Qed.

Lemma filter_prio_above (q : Z) (l : list priofunc) :
  Forall (fun z => q < Prio z) l -> filter (prio_is q) l = [].
Proof.
  induction 1 as [|z l Hz _ IH]; simpl; [reflexivity|].
  unfold prio_is. destruct (Prio z =? q) eqn:E; [apply Z.eqb_eq in E; lia|exact IH].
Qed.

Lemma ins_filter (q : Z) (x : priofunc) (l : list priofunc) :
  StronglySorted prio_le l ->
  filter (prio_is q) (ins x l) =
  filter (prio_is q) l ++ (if prio_is q x then [x] else []).
Proof.
  induction l as [|y l IH]; intros H.
  - simpl. destruct (prio_is q x); reflexivity.
  - apply StronglySorted_inv in H as [H1 H2].
    cbn [ins]. unfold Less. destruct (Prio x <? Prio y) eqn:E.
    + apply Z.ltb_lt in E.
      destruct (prio_is q x) eqn:Ex.
      * unfold prio_is in Ex. apply Z.eqb_eq in Ex. subst q.
        change (x :: y :: l) with ([x] ++ y :: l).
        rewrite filter_app, (filter_prio_above (Prio x) (y :: l)).
        -- simpl. unfold prio_is. rewrite Z.eqb_refl. reflexivity.
        -- constructor; [exact E|].
           eapply Forall_impl; [|exact H2]. unfold prio_le. intros a Ha. lia.
      * rewrite app_nil_r. simpl. rewrite Ex. reflexivity.
    + change (y :: ins x l) with ([y] ++ ins x l).
      change (y :: l) with ([y] ++ l).
      rewrite !filter_app, IH by exact H1. apply app_assoc.
Qed.

(** ** How a callback body may change the state *)

(** [regrow l l']: [l'] is [l] after a number of registrations. *)
Inductive regrow : list priofunc -> list priofunc -> Prop :=
| regrow_refl l : regrow l l
| regrow_push l l' x : regrow l l' -> regrow l (sort_Stable (l' ++ [x])).

Lemma regrow_trans l1 l2 l3 : regrow l1 l2 -> regrow l2 l3 -> regrow l1 l3.
Proof. intros H12 H23. induction H23; [exact H12|]. constructor; auto. Qed.

Lemma regrow_sorted l l' :
  regrow l l' -> StronglySorted prio_le l -> StronglySorted prio_le l'.
Proof.
  induction 1 as [l|l l' x _ IH]; intros H; [exact H|].
  rewrite sort_Stable_app by (apply IH, H). apply ins_sorted, IH, H.
Qed.

Lemma regrow_firstn l l' (p : Z) (m : nat) :
  regrow l l' -> StronglySorted prio_le l ->
  (m < List.length l)%nat -> Forall (fun z => Prio z <= p) (firstn (S m) l) ->
  (m < List.length l')%nat /\ Forall (fun z => Prio z <= p) (firstn (S m) l').
Proof.
  induction 1 as [l|l l' x Hr IH]; intros Hs Hm Hf; [auto|].
  destruct (IH Hs Hm Hf) as [Hm' Hf'].
  rewrite sort_Stable_app by (eapply regrow_sorted; eauto).
  rewrite ins_length. split; [lia|]. apply ins_firstn; auto.
Qed.

Lemma regrow_filter l l' (q : Z) :
  regrow l l' -> StronglySorted prio_le l ->
  exists added, filter (prio_is q) l' = filter (prio_is q) l ++ added.
Proof.
  induction 1 as [l|l l' x Hr IH]; intros Hs.
  - exists []. rewrite app_nil_r. reflexivity.
  - destruct (IH Hs) as [added Ha].
    rewrite sort_Stable_app by (eapply regrow_sorted; eauto).
    rewrite ins_filter by (eapply regrow_sorted; eauto).
    rewrite Ha, <- app_assoc. eexists. reflexivity.
Qed.

Definition stmt_registers_exit (st : stmt) : bool :=
  match st with
  | CallOnExitWithPriority _ _ | CallOnExit _ => true
  | _ => false
  end.

Definition no_exit_registration (f : func) : bool :=
  match f with
  | None => true
  | Some b => negb (existsb stmt_registers_exit b)
  end.

Lemma exit_calls_app t1 t2 : exit_calls (t1 ++ t2) = exit_calls t1 ++ exit_calls t2.
Proof. induction t1 as [|[] t1 IH]; simpl; rewrite ?IH; reflexivity. Qed.

Definition body_frame (s s' : state) (t : list event) : Prop :=
  executed s' = executed s /\ executech_closed s' = executech_closed s /\
  initfuncs s' = initfuncs s /\ regrow (exitfuncs s) (exitfuncs s') /\
  exit_calls t = [] /\ (forall v, In (EvExecuted v) t -> v = (executed s =? 1)) /\
  ~ In EvClose t.

Lemma body_frame_refl s : body_frame s s [].
Proof.
  unfold body_frame. split; [reflexivity|]. split; [reflexivity|]. split; [reflexivity|].
  split; [apply regrow_refl|]. split; [reflexivity|]. split; [intros v []|intros []].
Qed.

Lemma body_frame_trans s1 s2 s3 t1 t2 :
  body_frame s1 s2 t1 -> body_frame s2 s3 t2 -> body_frame s1 s3 (t1 ++ t2).
Proof.
  intros (E1 & C1 & I1 & R1 & X1 & V1 & N1) (E2 & C2 & I2 & R2 & X2 & V2 & N2).
  split; [congruence|]. split; [congruence|]. split; [congruence|].
  split; [eapply regrow_trans; eauto|].
  split; [rewrite exit_calls_app, X1, X2; reflexivity|].
  split.
  - intros v Hv. apply in_app_or in Hv as [Hv|Hv]; auto. rewrite (V2 v Hv), E1. reflexivity.
  - intros Hc. apply in_app_or in Hc as [Hc|Hc]; contradiction.
Qed.

Lemma OnExitWithPriority_frame p f s r s' t :
  OnExitWithPriority p f s = (r, s', t) -> body_frame s s' t.
Proof.
  destruct f as [b|]; cbn; intros H; injection H as <- <- <-.
  - repeat split; try reflexivity.
    + apply regrow_push, regrow_refl.
    + intros v [].
    + intros [].
  - apply body_frame_refl.
Qed.

Lemma run_stmt_frame st s r s' t :
  run_stmt st s = (r, s', t) -> body_frame s s' t.
Proof.
  destruct st as [str|msg| |p f|f]; cbn.
  - intros H; injection H as <- <- <-. apply (body_frame_refl s).
  - intros H; injection H as <- <- <-. apply body_frame_refl.
  - intros H; injection H as <- <- <-. repeat split; try constructor.
    + intros v [Hv|[]]. injection Hv as <-. reflexivity.
    + intros [Hv|[]]. discriminate.
  - apply OnExitWithPriority_frame.
  - destruct (OnExitWithPriority _ f _) as [[r1 s1] t1] eqn:E.
    intros H; injection H as <- <- <-.
    apply OnExitWithPriority_frame in E.
    destruct E as (E1 & C1 & I1 & R1 & X1 & V1 & N1).
    repeat split; cbn in *; auto.
Qed.

Lemma bind_inv {A B} (m : M A) (k : A -> M B) s r s' t :
  bind m k s = (r, s', t) ->
  (exists msg s1, m s = (Panicking msg, s1, t) /\ r = Panicking msg /\ s' = s1) \/
  (exists a s1 t1 t2, m s = (Ok a, s1, t1) /\ k a s1 = (r, s', t2) /\ t = t1 ++ t2).
Proof.
  unfold bind. destruct (m s) as [[[a|msg] s1] t1].
  - destruct (k a s1) as [[r2 s2] t2] eqn:E. intros H; injection H as <- <- <-.
    right. exists a, s1, t1, t2. auto.
  - intros H; injection H as <- <- <-. left. exists msg, s1. auto.
Qed.

Lemma run_body_frame b s r s' t :
  run_body b s = (r, s', t) -> body_frame s s' t.
Proof.
  revert s r s' t. induction b as [|st b IH]; intros s r s' t H.
  - cbn in H. injection H as <- <- <-. apply body_frame_refl.
  - apply bind_inv in H as [(msg & s1 & H1 & -> & ->)|(a & s1 & t1 & t2 & H1 & H2 & ->)].
    + eapply run_stmt_frame; exact H1.
    + eapply body_frame_trans; [eapply run_stmt_frame; exact H1|]. eapply IH; exact H2.
Qed.

Lemma call_frame f s r s' t : call f s = (r, s', t) -> body_frame s s' t.
Proof.
  destruct f as [b|]; cbn.
  - apply run_body_frame.
  - intros H; injection H as <- <- <-. apply body_frame_refl.
Qed.

Lemma call_no_registration f s r s' t :
  no_exit_registration f = true -> call f s = (r, s', t) -> exitfuncs s' = exitfuncs s.
Proof.
  destruct f as [b|]; cbn; [|intros _ H; injection H as <- <- <-; reflexivity].
  revert s r s' t. induction b as [|st b IH]; intros s r s' t Hn H.
  - cbn in H. injection H as <- <- <-. reflexivity.
  - cbn in Hn. rewrite negb_orb in Hn. apply andb_prop in Hn as [Hst Hb].
    apply bind_inv in H as [(msg & s1 & H1 & -> & ->)|(a & s1 & t1 & t2 & H1 & H2 & ->)];
      destruct st; cbn in Hst, H1; try discriminate;
      injection H1 as <- <- <-; try reflexivity;
      rewrite (IH _ _ _ _ Hb H2); reflexivity.
Qed.

(** ** One iteration of the loop of [execute] *)

Lemma with_defer_builtin (m : M unit) s :
  with_defer DeferBuiltinRecover m s = m s.
Proof.
  unfold with_defer. destruct (m s) as [[r s'] t]. destruct r; reflexivity.
Qed.

Lemma execute_loop_step k s r s' t :
  execute_loop (S k) s = (r, s', t) ->
  (nth_error (exitfuncs s) k = None /\ s' = s /\ t = [] /\ exists msg, r = Panicking msg) \/
  (exists pf rc s1 tc,
     nth_error (exitfuncs s) k = Some pf /\ call (Func pf) s = (rc, s1, tc) /\
     ((exists msg, rc = Panicking msg /\ r = Panicking msg /\ s' = s1 /\ t = EvCallExit pf :: tc) \/
      (rc = Ok tt /\ exists t2, execute_loop k s1 = (r, s', t2) /\ t = EvCallExit pf :: tc ++ t2))).
Proof.
  cbn [execute_loop]. intros H.
  apply bind_inv in H as [(msg & s1 & H1 & _)|(a & s1 & t1 & t2 & H1 & H2 & ->)];
    cbn in H1; [discriminate|]. injection H1 as <- <- <-.
  destruct (nth_error (exitfuncs s) k) as [pf|] eqn:En.
  - right. exists pf.
    apply bind_inv in H2 as [(msg & s2 & H3 & -> & ->)|(u & s2 & t3 & t4 & H3 & H4 & ->)].
    + apply bind_inv in H3 as [(msg' & s3 & H5 & _)|(u & s3 & t5 & t6 & H5 & H6 & Ht)];
        cbn in H5; [discriminate|]. injection H5 as <- <- <-.
      rewrite with_defer_builtin in H6.
      exists (Panicking msg), s2, t6. split; [reflexivity|]. split; [exact H6|].
      left. exists msg. subst. repeat split; reflexivity.
    + apply bind_inv in H3 as [(msg' & s3 & H5 & _)|(u' & s3 & t5 & t6 & H5 & H6 & Ht)];
        cbn in H5; [discriminate|]. injection H5 as <- <- <-.
      rewrite with_defer_builtin in H6. destruct u.
      exists (Ok tt), s2, t6. split; [reflexivity|]. split; [exact H6|].
      right. split; [reflexivity|]. exists t4. subst. split; [exact H4|reflexivity].
  - left. cbn in H2. injection H2 as <- <- <-. eauto.
Qed.

(** ** The loop of [execute]: order of the calls *)

Lemma execute_loop_descending k s r s' t (last : Z) :
  StronglySorted prio_le (exitfuncs s) -> (k <= List.length (exitfuncs s))%nat ->
  Forall (fun z => Prio z <= last) (firstn k (exitfuncs s)) ->
  execute_loop k s = (r, s', t) ->
  Forall (fun z => Prio z <= last) (exit_calls t) /\
  StronglySorted (fun a b => Prio b <= Prio a) (exit_calls t).
Proof.
  revert s r s' t last. induction k as [|k IH]; intros s r s' t last Hs Hk Hf H.
  - cbn in H. injection H as <- <- <-. split; constructor.
  - apply execute_loop_step in H as [(En & _ & -> & _)|(pf & rc & s1 & tc & En & Hc & Hcase)].
    + split; constructor.
    + pose proof (call_frame _ _ _ _ _ Hc) as (_ & _ & _ & Rg & Xc & _ & _).
      assert (Hpf : Prio pf <= last).
      { rewrite (firstn_S_nth_error _ _ _ En) in Hf.
        apply Forall_app in Hf as [_ Hf]. inversion Hf; assumption. }
      destruct Hcase as [(msg & -> & -> & -> & ->)|(-> & t2 & Hl & ->)].
      * cbn. rewrite Xc. split; repeat constructor; assumption.
      * cbn. rewrite exit_calls_app, Xc. cbn.
        pose proof (SS_firstn_nth _ _ _ Hs En) as Hle.
        assert (Hlt : (k < List.length (exitfuncs s))%nat) by (apply nth_error_Some; congruence).
        destruct (regrow_firstn _ _ (Prio pf) k Rg Hs Hlt Hle) as [Hk1 Hf1].
        destruct (IH s1 r s' t2 (Prio pf) (regrow_sorted _ _ Rg Hs) (Nat.lt_le_incl _ _ Hk1)
                    (Forall_firstn_shorter _ _ _ Hf1) Hl) as [Ha Hb].
        split.
        -- constructor; [exact Hpf|]. apply Forall_forall. intros a Hin.
           rewrite Forall_forall in Ha. specialize (Ha a Hin). lia.
        -- constructor; [exact Hb | exact Ha].
Qed.

Lemma execute_loop_no_registration k s r s' t :
  forallb (fun pf => no_exit_registration (Func pf)) (exitfuncs s) = true ->
  (k <= List.length (exitfuncs s))%nat ->
  execute_loop k s = (r, s', t) ->
  exitfuncs s' = exitfuncs s /\
  (exists rest, exit_calls t ++ rest = rev (firstn k (exitfuncs s))) /\
  (r = Ok tt -> exit_calls t = rev (firstn k (exitfuncs s))).
Proof.
  revert s r s' t. induction k as [|k IH]; intros s r s' t Hn Hk H.
  - cbn in H. injection H as <- <- <-. split; [reflexivity|]. split; [exists []|]; reflexivity.
  - apply execute_loop_step in H as [(En & _ & _ & _)|(pf & rc & s1 & tc & En & Hc & Hcase)].
    + apply nth_error_None in En. lia.
    + pose proof (call_frame _ _ _ _ _ Hc) as (_ & _ & _ & _ & Xc & _ & _).
      assert (Hpf : no_exit_registration (Func pf) = true).
      { rewrite forallb_forall in Hn. apply Hn. eapply nth_error_In; exact En. }
      pose proof (call_no_registration _ _ _ _ _ Hpf Hc) as E1.
      rewrite (firstn_S_nth_error _ _ _ En), rev_app_distr. cbn.
      destruct Hcase as [(msg & -> & -> & -> & ->)|(-> & t2 & Hl & ->)].
      * cbn. rewrite Xc. split; [exact E1|]. split; [|discriminate].
        exists (rev (firstn k (exitfuncs s))). reflexivity.
      * cbn. rewrite exit_calls_app, Xc. cbn.
        rewrite <- E1 in Hn, Hk |- *.
        destruct (IH s1 r s' t2 Hn ltac:(lia) Hl) as (E2 & [rest Hr] & Hok).
        split; [congruence|]. split.
        -- exists rest. cbn. rewrite Hr. reflexivity.
        -- intros Hr'. rewrite (Hok Hr'). reflexivity.
Qed.

(** ** The loop of [execute]: flags *)

Lemma execute_loop_flags k s r s' t :
  execute_loop k s = (r, s', t) ->
  executed s' = executed s /\ executech_closed s' = executech_closed s /\
  (forall v, In (EvExecuted v) t -> v = (executed s =? 1)) /\ ~ In EvClose t.
Proof.
  revert s r s' t. induction k as [|k IH]; intros s r s' t H.
  - cbn in H. injection H as <- <- <-. split; [reflexivity|]. split; [reflexivity|].
    split; [intros v []|intros []].
  - apply execute_loop_step in H as [(_ & -> & -> & _)|(pf & rc & s1 & tc & _ & Hc & Hcase)].
    + split; [reflexivity|]. split; [reflexivity|]. split; [intros v []|intros []].
    + pose proof (call_frame _ _ _ _ _ Hc) as (E1 & C1 & _ & _ & _ & V1 & N1).
      destruct Hcase as [(msg & _ & _ & -> & ->)|(_ & t2 & Hl & ->)].
      * split; [exact E1|]. split; [exact C1|]. split.
        -- intros v [Hv|Hv]; [discriminate|]. auto.
        -- intros [Hv|Hv]; [discriminate|]. auto.
      * destruct (IH _ _ _ _ Hl) as (E2 & C2 & V2 & N2).
        split; [congruence|]. split; [congruence|]. split.
        -- intros v [Hv|Hv]; [discriminate|]. apply in_app_or in Hv as [Hv|Hv]; auto.
           rewrite (V2 v Hv), E1. reflexivity.
        -- intros [Hv|Hv]; [discriminate|]. apply in_app_or in Hv as [Hv|Hv]; auto.
Qed.

(** ** [execute] as a whole *)

Lemma execute_again s : executed s <> 0 -> execute s = (Ok tt, s, []).
Proof.
  intros H. unfold execute, bind, CompareAndSwap_executed.
  destruct (executed s =? 0) eqn:E; [apply Z.eqb_eq in E; contradiction|reflexivity].
Qed.

Lemma execute_first s :
  executed s = 0 ->
  execute s =
    match execute_loop (List.length (exitfuncs s)) (set_ctx_cancelled true (set_executed 1 s)) with
    | (Ok _, s1, t1) => (Ok tt, set_executech_closed true s1, EvCancel :: t1 ++ [EvClose])
    | (Panicking msg, s1, t1) => (Panicking msg, s1, EvCancel :: t1)
    end.
Proof.
  intros H. unfold execute, bind, CompareAndSwap_executed, cancel, close_executech,
    modify, emit, get, ret. rewrite H. cbn -[execute_loop].
  destruct (execute_loop _ _) as [[[u|msg] s1] t1]; cbn; reflexivity.
Qed.

Lemma StronglySorted_nth {A} (R : A -> A -> Prop) (l : list A) i j a b :
  StronglySorted R l -> (i < j)%nat ->
  nth_error l i = Some a -> nth_error l j = Some b -> R a b.
Proof.
  revert i j. induction l as [|x l IH]; intros i j H Hij Ha Hb; [destruct i; discriminate|].
  apply StronglySorted_inv in H as [H1 H2].
  destruct i as [|i], j as [|j]; cbn in Ha, Hb; try lia.
  - injection Ha as <-. rewrite Forall_forall in H2. apply H2. eapply nth_error_In; exact Hb.
  - apply (IH i j); auto. lia.
Qed.

Definition max_prio (l : list priofunc) : Z :=
  fold_right (fun z m => Z.max (Prio z) m) 0 l.

Lemma max_prio_bound l : Forall (fun z => Prio z <= max_prio l) l.
Proof.
  induction l as [|y l IH]; [constructor|].
  change (max_prio (y :: l)) with (Z.max (Prio y) (max_prio l)).
  constructor; [lia|]. eapply Forall_impl; [|exact IH]. intros a Ha. cbv beta in Ha. lia.
Qed.

Lemma execute_descending s r s' t :
  StronglySorted prio_le (exitfuncs s) -> execute s = (r, s', t) ->
  StronglySorted (fun a b => Prio b <= Prio a) (exit_calls t).
Proof.
  intros Hs H. destruct (Z.eq_dec (executed s) 0) as [E|E].
  - rewrite execute_first in H by exact E.
    destruct (execute_loop _ _) as [[r1 s1] t1] eqn:Hl.
    assert (Hd := execute_loop_descending _ (set_ctx_cancelled true (set_executed 1 s)) _ _ _
                    (max_prio (exitfuncs s)) Hs (le_n _)
                    ltac:(rewrite firstn_all; apply max_prio_bound) Hl).
    destruct r1; injection H as <- <- <-; cbn; rewrite ?exit_calls_app; cbn;
      rewrite ?app_nil_r; apply Hd.
  - rewrite execute_again in H by exact E. injection H as <- <- <-. constructor.
Qed.

(** ** Sequences of registrations *)

Definition reg_op (x : Z * func) : op := OpOnExitWithPriority (fst x) (snd x).
Definition reg_entry (x : Z * func) : priofunc := {| Func := snd x; Prio := fst x |}.

Definition regs_fold (regs : list (Z * func)) (l : list priofunc) : list priofunc :=
  fold_left (fun acc x => sort_Stable (acc ++ [reg_entry x])) regs l.

Lemma run_regs_then (regs : list (Z * func)) (rest : list op) s r s' t :
  run_ops (map reg_op regs ++ rest) s = (r, s', t) ->
  (exists msg, r = Panicking msg /\ t = []) \/
  (exists s1, run_ops rest s1 = (r, s', t) /\
     exitfuncs s1 = regs_fold regs (exitfuncs s) /\
     executed s1 = executed s /\ executech_closed s1 = executech_closed s).
Proof.
  revert s. induction regs as [|[p f] regs IH]; intros s H.
  - right. exists s. auto.
  - cbn [map app run_ops] in H.
    apply bind_inv in H as [(msg & s1 & H1 & -> & ->)|(u & s1 & t1 & t2 & H1 & H2 & ->)].
    + left. exists msg. destruct f; cbn in H1; injection H1 as <- <- <-; auto.
    + destruct f as [b|]; cbn in H1; [|discriminate]. injection H1 as <- <- <-.
      destruct (IH _ H2) as [(msg & -> & ->)|(s2 & H3 & E1 & E2 & E3)].
      * left. exists msg. auto.
      * right. exists s2. cbn in E1, E2, E3 |- *. auto.
Qed.

Lemma regs_fold_sorted regs l :
  StronglySorted prio_le l -> StronglySorted prio_le (regs_fold regs l).
Proof.
  revert l. induction regs as [|x regs IH]; intros l H; cbn; [exact H|].
  apply IH. rewrite sort_Stable_app by exact H. apply ins_sorted, H.
Qed.

Lemma regs_fold_filter regs l (q : Z) :
  StronglySorted prio_le l ->
  filter (prio_is q) (regs_fold regs l) = filter (prio_is q) l ++ filter (prio_is q) (map reg_entry regs).
Proof.
  revert l. induction regs as [|x regs IH]; intros l H; cbn.
  - rewrite app_nil_r. reflexivity.
  - rewrite IH by (rewrite sort_Stable_app by exact H; apply ins_sorted, H).
    rewrite sort_Stable_app, ins_filter by exact H.
    rewrite <- app_assoc. destruct (prio_is q (reg_entry x)); reflexivity.
Qed.

Lemma regs_fold_In regs l z :
  In z (regs_fold regs l) -> In z l \/ In z (map reg_entry regs).
Proof.
  revert l. induction regs as [|x regs IH]; intros l H; cbn in *; [auto|].
  apply IH in H as [H|H]; [|auto].
  unfold sort_Stable, insertionSort in H. apply in_rev in H.
  rewrite fold_left_app in H. cbn in H.
  (* every element of the sorted list is one of the inputs *)
  assert (Hsink : forall y racc, In z (sink y racc) -> z = y \/ In z racc).
  { intros y racc. induction racc as [|w racc IHr]; cbn; [intuition|].
    destruct (Less y w); cbn; intuition. }
  assert (Hfold : forall l0 acc, In z (fold_left (fun racc x0 => sink x0 racc) l0 acc) ->
                    In z l0 \/ In z acc).
  { induction l0 as [|w l0 IHl]; intros acc Hz; cbn in *; [auto|].
    apply IHl in Hz as [Hz|Hz]; [auto|]. apply Hsink in Hz as [Hz|Hz]; auto. }
  apply Hsink in H as [<-|H]; [right; left; reflexivity|].
  apply Hfold in H as [H|[]]. auto.
Qed.

Lemma filter_rev {A} (f : A -> bool) (l : list A) : filter f (rev l) = rev (filter f l).
Proof.
  induction l as [|a l IH]; cbn; [reflexivity|].
  rewrite filter_app, IH. cbn. destruct (f a); cbn; rewrite ?app_nil_r; reflexivity.
Qed.

(** ** Once [executed] is 1 *)

Lemma init_loop_frame i fuel s r s' t :
  init_loop i fuel s = (r, s', t) ->
  executed s' = executed s /\ exit_calls t = [].
Proof.
  revert i s r s' t. induction fuel as [|fuel IH]; intros i s r s' t H.
  - cbn in H. injection H as <- <- <-. auto.
  - cbn [init_loop] in H.
    apply bind_inv in H as [(msg & s1 & H1 & _)|(a & s1 & t1 & t2 & H1 & H2 & ->)];
      cbn in H1; [discriminate|]. injection H1 as <- <- <-.
    destruct (nth_error (initfuncs s) i) as [pf|].
    + apply bind_inv in H2 as [(msg & s2 & H3 & -> & ->)|(u & s2 & t3 & t4 & H3 & H4 & ->)].
      * apply bind_inv in H3 as [(msg' & s3 & H5 & _)|(u & s3 & t5 & t6 & H5 & H6 & ->)];
          cbn in H5; [discriminate|]. injection H5 as <- <- <-.
        destruct (call_frame _ _ _ _ _ H6) as (E & _ & _ & _ & X & _). auto.
      * apply bind_inv in H3 as [(msg' & s3 & H5 & _)|(u' & s3 & t5 & t6 & H5 & H6 & ->)];
          cbn in H5; [discriminate|]. injection H5 as <- <- <-.
        destruct (call_frame _ _ _ _ _ H6) as (E & _ & _ & _ & X & _).
        destruct (IH _ _ _ _ _ H4) as [E' X'].
        split; [congruence|]. cbn. rewrite exit_calls_app, X, X'. reflexivity.
    + cbn in H2. injection H2 as <- <- <-. auto.
Qed.

Lemma run_op_after_executed o s r s' t :
  executed s = 1 -> run_op o s = (r, s', t) ->
  executed s' = 1 /\ exit_calls t = [].
Proof.
  intros He H. destruct o as [p f|f|p f|f| | |code]; cbn [run_op] in H.
  - destruct (OnExitWithPriority_frame _ _ _ _ _ _ H) as (E & _ & _ & _ & X & _). split; congruence.
  - unfold OnExit in H.
    apply bind_inv in H as [(msg & s1 & H1 & _)|(a & s1 & t1 & t2 & H1 & H2 & ->)];
      cbn in H1; [discriminate|]. injection H1 as <- <- <-.
    destruct (OnExitWithPriority_frame _ _ _ _ _ _ H2) as (E & _ & _ & _ & X & _).
    cbn in E. split; [congruence|exact X].
  - cbn in H. injection H as <- <- <-. auto.
  - cbn in H. injection H as <- <- <-. auto.
  - unfold Init in H.
    apply bind_inv in H as [(msg & s1 & H1 & _)|(a & s1 & t1 & t2 & H1 & H2 & ->)];
      cbn in H1; [discriminate|]. injection H1 as <- <- <-.
    destruct (init_loop_frame _ _ _ _ _ _ H2) as [E X]. split; [congruence|exact X].
  - unfold Execute in H. rewrite execute_again in H by lia. injection H as <- <- <-. auto.
  - unfold Exit in H. unfold bind at 1 in H. rewrite execute_again in H by lia.
    cbn in H. injection H as <- <- <-. auto.
Qed.

Lemma run_ops_after_executed ops s r s' t :
  executed s = 1 -> run_ops ops s = (r, s', t) ->
  executed s' = 1 /\ exit_calls t = [].
Proof.
  revert s r s' t. induction ops as [|o ops IH]; intros s r s' t He H.
  - cbn in H. injection H as <- <- <-. auto.
  - cbn [run_ops] in H.
    apply bind_inv in H as [(msg & s1 & H1 & -> & ->)|(a & s1 & t1 & t2 & H1 & H2 & ->)].
    + eapply run_op_after_executed; eauto.
    + destruct (run_op_after_executed _ _ _ _ _ He H1) as [E1 X1].
      destruct (IH _ _ _ _ E1 H2) as [E2 X2].
      split; [exact E2|]. rewrite exit_calls_app, X1, X2. reflexivity.
Qed.

Lemma run_ops_single o s : run_ops [o] s = run_op o s.
Proof.
  cbn [run_ops]. unfold bind. destruct (run_op o s) as [[[[]|m] s'] t]; cbn; rewrite ?app_nil_r; reflexivity.
Qed.

Lemma execute_no_registration s r s' t :
  executed s = 0 ->
  forallb (fun pf => no_exit_registration (Func pf)) (exitfuncs s) = true ->
  execute s = (r, s', t) ->
  (exists rest, exit_calls t ++ rest = rev (exitfuncs s)) /\
  (r = Ok tt -> exit_calls t = rev (exitfuncs s)).
Proof.
  intros He Hn H. rewrite execute_first in H by exact He.
  destruct (execute_loop _ _) as [[r1 s1] t1] eqn:Hl.
  destruct (execute_loop_no_registration _ (set_ctx_cancelled true (set_executed 1 s)) _ _ _
              Hn (le_n _) Hl) as (_ & [rest Hr] & Hok).
  cbn in Hr, Hok. rewrite firstn_all in Hr, Hok.
  destruct r1 as [u|msg]; injection H as <- <- <-; cbn; rewrite ?exit_calls_app; cbn;
    rewrite ?app_nil_r.
  - split; [exists rest; exact Hr|]. intros _. destruct u. apply Hok. reflexivity.
  - split; [exists rest; exact Hr|discriminate].
Qed.

(** ** Further vocabulary: init-side traces, counter-assigned priorities and
    callbacks that cannot panic *)

(** The init callbacks called in a trace, in order. *)
Fixpoint init_calls (t : list event) : list priofunc :=
  match t with
  | [] => []
  | EvCallInit pf :: t' => pf :: init_calls t'
  | _ :: t' => init_calls t'
  end.

Definition init_reg_op (x : Z * func) : op := OpRegisterInitWithPriority (fst x) (snd x).

(** The entries that successive [OnExit] (or [RegisterInit]) calls store when
    the counter starts at [c] and does not wrap: priorities [c+1], [c+2], ... *)
Fixpoint counter_entries (c : Z) (fs : list func) : list priofunc :=
  match fs with
  | [] => []
  | f :: fs' => {| Func := f; Prio := c + 1 |} :: counter_entries (c + 1) fs'
  end.

(** A statement that cannot panic: no [panic], and every callback it registers
    is non-nil and cannot panic either. *)
Fixpoint stmt_safe (st : stmt) : bool :=
  match st with
  | Write _ | CallExecuted => true
  | Panic _ => false
  | CallOnExitWithPriority _ f | CallOnExit f =>
      match f with
      | None => false
      | Some b => forallb stmt_safe b
      end
  end.

Definition func_safe (f : func) : bool :=
  match f with
  | None => false
  | Some b => forallb stmt_safe b
  end.

Definition registry_safe (l : list priofunc) : bool := forallb (fun pf => func_safe (Func pf)) l.

(** ** sort.Stable on an arbitrary registry *)

Lemma sort_Stable_snoc_raw (l : list priofunc) (x : priofunc) :
  sort_Stable (l ++ [x]) = rev (sink x (rev (sort_Stable l))).
Proof.
  unfold sort_Stable, insertionSort. rewrite rev_involutive, fold_left_app. reflexivity.
Qed.

Lemma sort_Stable_sorted (l : list priofunc) : StronglySorted prio_le (sort_Stable l).
Proof.
  induction l as [|y l IH] using rev_ind; [constructor|].
  rewrite sort_Stable_snoc_raw, rev_sink_sorted by exact IH. apply ins_sorted, IH.
Qed.

Lemma sort_Stable_snoc (l : list priofunc) (x : priofunc) :
  sort_Stable (l ++ [x]) = ins x (sort_Stable l).
Proof. rewrite sort_Stable_snoc_raw. apply rev_sink_sorted, sort_Stable_sorted. Qed.

Lemma ins_perm (x : priofunc) (l : list priofunc) : Permutation (x :: l) (ins x l).
Proof.
  induction l as [|y l IH]; cbn; [reflexivity|].
  destruct (Less x y); [reflexivity|].
  etransitivity; [apply perm_swap|]. constructor. exact IH.
Qed.

Lemma sort_Stable_perm (l : list priofunc) : Permutation l (sort_Stable l).
Proof.
  induction l as [|y l IH] using rev_ind; [reflexivity|].
  rewrite sort_Stable_snoc.
  etransitivity; [apply Permutation_sym, Permutation_cons_append|].
  etransitivity; [apply perm_skip, IH|]. apply ins_perm.
Qed.

Lemma sort_Stable_filter (l : list priofunc) (q : Z) :
  filter (prio_is q) (sort_Stable l) = filter (prio_is q) l.
Proof.
  induction l as [|y l IH] using rev_ind; [reflexivity|].
  rewrite sort_Stable_snoc, ins_filter by apply sort_Stable_sorted.
  rewrite IH, filter_app. cbn. destruct (prio_is q y); reflexivity.
Qed.

Lemma sort_Stable_forallb (P : priofunc -> bool) (l : list priofunc) :
  forallb P (sort_Stable l) = forallb P l.
Proof.
  pose proof (sort_Stable_perm l) as Hp.
  destruct (forallb P l) eqn:E.
  - apply forallb_forall. intros z Hz. rewrite forallb_forall in E.
    apply E. eapply Permutation_in; [apply Permutation_sym, Hp|exact Hz].
  - apply not_true_iff_false. intros H. apply not_true_iff_false in E. apply E.
    apply forallb_forall. intros z Hz. rewrite forallb_forall in H.
    apply H. eapply Permutation_in; [exact Hp|exact Hz].
Qed.

Lemma ins_split (x : priofunc) (l : list priofunc) :
  StronglySorted prio_le l ->
  exists l1 l2, l = l1 ++ l2 /\ ins x l = l1 ++ x :: l2 /\
    Forall (fun z => Prio z <= Prio x) l1 /\ Forall (fun z => Prio x < Prio z) l2.
Proof.
  induction l as [|y l IH]; intros H.
  - exists [], []. repeat split; constructor.
  - apply StronglySorted_inv in H as [H1 H2].
    cbn [ins]. unfold Less. destruct (Prio x <? Prio y) eqn:E.
    + apply Z.ltb_lt in E. exists [], (y :: l). repeat split; [constructor|].
      constructor; [exact E|]. apply Forall_forall. intros z Hz.
      rewrite Forall_forall in H2. specialize (H2 z Hz). unfold prio_le in H2. lia.
    + apply Z.ltb_ge in E. destruct (IH H1) as (l1 & l2 & -> & -> & F1 & F2).
      exists (y :: l1), l2. repeat split; auto.
Qed.

(** ** Events a callback can produce and what it leaves alone *)

Lemma run_stmt_events st s r s' t :
  run_stmt st s = (r, s', t) ->
  ctx_cancelled s' = ctx_cancelled s /\ Forall (fun e => exists v, e = EvExecuted v) t.
Proof.
  destruct st as [str|msg| |p [b|]|[b|]]; cbn; intros H; injection H as <- <- <-;
    split; try reflexivity; repeat constructor; eauto.
Qed.

Lemma run_body_events b s r s' t :
  run_body b s = (r, s', t) ->
  ctx_cancelled s' = ctx_cancelled s /\ Forall (fun e => exists v, e = EvExecuted v) t.
Proof.
  revert s r s' t. induction b as [|st b IH]; intros s r s' t H.
  - cbn in H. injection H as <- <- <-. split; [reflexivity|constructor].
  - apply bind_inv in H as [(msg & s1 & H1 & -> & ->)|(a & s1 & t1 & t2 & H1 & H2 & ->)].
    + eapply run_stmt_events; exact H1.
    + destruct (run_stmt_events _ _ _ _ _ H1) as [C1 F1].
      destruct (IH _ _ _ _ H2) as [C2 F2].
      split; [congruence|]. apply Forall_app; auto.
Qed.

Lemma call_events f s r s' t :
  call f s = (r, s', t) ->
  ctx_cancelled s' = ctx_cancelled s /\ Forall (fun e => exists v, e = EvExecuted v) t.
Proof.
  destruct f as [b|]; cbn; [apply run_body_events|].
  intros H; injection H as <- <- <-. split; [reflexivity|constructor].
Qed.

Lemma init_calls_executed_only t :
  Forall (fun e => exists v, e = EvExecuted v) t -> init_calls t = [].
Proof. induction 1 as [|e t [v ->] _ IH]; cbn; auto. Qed.

Lemma init_calls_app t1 t2 : init_calls (t1 ++ t2) = init_calls t1 ++ init_calls t2.
Proof. induction t1 as [|[] t1 IH]; simpl; rewrite ?IH; reflexivity. Qed.

(** ** The loop of [execute]: context, events and the number of calls *)

Definition loop_event (e : event) : Prop :=
  (exists v, e = EvExecuted v) \/ (exists pf, e = EvCallExit pf).

Lemma execute_loop_events k s r s' t :
  execute_loop k s = (r, s', t) ->
  ctx_cancelled s' = ctx_cancelled s /\ Forall loop_event t /\
  (List.length (exit_calls t) <= k)%nat.
Proof.
  revert s r s' t. induction k as [|k IH]; intros s r s' t H.
  - cbn in H. injection H as <- <- <-. split; [reflexivity|]. split; [constructor|cbn; lia].
  - apply execute_loop_step in H as [(_ & -> & -> & _)|(pf & rc & s1 & tc & _ & Hc & Hcase)].
    + split; [reflexivity|]. split; [constructor|cbn; lia].
    + destruct (call_events _ _ _ _ _ Hc) as [C1 F1].
      pose proof (call_frame _ _ _ _ _ Hc) as (_ & _ & _ & _ & Xc & _ & _).
      assert (Fc : Forall loop_event tc).
      { eapply Forall_impl; [|exact F1]. intros e He. left. exact He. }
      destruct Hcase as [(msg & _ & _ & -> & ->)|(_ & t2 & Hl & ->)].
      * split; [exact C1|]. split.
        -- constructor; [right; eauto|exact Fc].
        -- cbn. rewrite Xc. cbn. lia.
      * destruct (IH _ _ _ _ Hl) as (C2 & F2 & L2).
        split; [congruence|]. split.
        -- constructor; [right; eauto|]. apply Forall_app; auto.
        -- cbn. rewrite exit_calls_app, Xc. cbn. lia.
Qed.

(** ** The loop of [execute] when no callback can panic *)

Lemma registry_safe_push (l : list priofunc) (x : priofunc) :
  registry_safe l = true -> func_safe (Func x) = true ->
  registry_safe (sort_Stable (l ++ [x])) = true /\
  (List.length l < List.length (sort_Stable (l ++ [x])))%nat.
Proof.
  intros Hl Hx. unfold registry_safe in *. rewrite sort_Stable_forallb, forallb_app.
  cbn. rewrite Hl, Hx. split; [reflexivity|].
  rewrite <- (Permutation_length (sort_Stable_perm (l ++ [x]))), length_app. cbn. lia.
Qed.

Lemma run_body_safe b s r s' t :
  forallb stmt_safe b = true -> registry_safe (exitfuncs s) = true ->
  run_body b s = (r, s', t) ->
  r = Ok tt /\ registry_safe (exitfuncs s') = true /\
  (List.length (exitfuncs s) <= List.length (exitfuncs s'))%nat.
Proof.
  revert s r s' t. induction b as [|st b IH]; intros s r s' t Hb Hs H.
  - cbn in H. injection H as <- <- <-. auto.
  - cbn in Hb. apply andb_prop in Hb as [Hst Hb].
    assert (Hstep : forall r1 s1 t1, run_stmt st s = (r1, s1, t1) ->
              r1 = Ok tt /\ registry_safe (exitfuncs s1) = true /\
              (List.length (exitfuncs s) <= List.length (exitfuncs s1))%nat).
    { intros r1 s1 t1 H1.
      destruct st as [str|msg| |p [b'|]|[b'|]]; cbn in Hst; try discriminate;
        cbn -[sort_Stable] in H1; injection H1 as <- <- <-;
        cbn [exitfuncs set_exitfuncs set_priority set_buf];
        try (split; [reflexivity|]; split; [exact Hs|lia]);
        match goal with
        | |- context [sort_Stable (exitfuncs s ++ [?x])] =>
            destruct (registry_safe_push (exitfuncs s) x Hs Hst) as [A B]
        end;
        (split; [reflexivity|]; split; [exact A|lia]). }
    apply bind_inv in H as [(msg & s1 & H1 & -> & ->)|(a & s1 & t1 & t2 & H1 & H2 & ->)].
    + destruct (Hstep _ _ _ H1) as [E _]. discriminate.
    + destruct (Hstep _ _ _ H1) as (_ & S1 & L1).
      destruct (IH _ _ _ _ Hb S1 H2) as (E2 & S2 & L2). split; [exact E2|]. split; [exact S2|lia].
Qed.

Lemma execute_loop_safe k s r s' t :
  (k <= List.length (exitfuncs s))%nat -> registry_safe (exitfuncs s) = true ->
  execute_loop k s = (r, s', t) -> r = Ok tt.
Proof.
  revert s r s' t. induction k as [|k IH]; intros s r s' t Hk Hs H.
  - cbn in H. injection H as <- <- <-. reflexivity.
  - apply execute_loop_step in H as [(En & _ & _ & _)|(pf & rc & s1 & tc & En & Hc & Hcase)].
    + apply nth_error_None in En. lia.
    + assert (Hpf : func_safe (Func pf) = true).
      { unfold registry_safe in Hs. rewrite forallb_forall in Hs. apply Hs.
        eapply nth_error_In; exact En. }
      destruct (Func pf) as [b|] eqn:Ef; [|discriminate].
      cbn in Hc. destruct (run_body_safe _ _ _ _ _ Hpf Hs Hc) as (-> & S1 & L1).
      destruct Hcase as [(msg & E & _)|(_ & t2 & Hl & _)]; [discriminate|].
      eapply IH; [|exact S1|exact Hl]. lia.
Qed.

(** ** The init loop *)

Lemma skipn_nth_error {A} (l : list A) (i : nat) (a : A) :
  nth_error l i = Some a -> skipn i l = a :: skipn (S i) l.
Proof.
  revert l. induction i as [|i IH]; intros [|b l] H; cbn in H; try discriminate.
  - injection H as ->. reflexivity.
  - cbn. apply IH, H.
Qed.

Lemma init_loop_calls i fuel s r s' t :
  (i + fuel <= List.length (initfuncs s))%nat ->
  init_loop i fuel s = (r, s', t) ->
  initfuncs s' = initfuncs s /\
  (exists rest, init_calls t ++ rest = firstn fuel (skipn i (initfuncs s))) /\
  (r = Ok tt -> init_calls t = firstn fuel (skipn i (initfuncs s))).
Proof.
  revert i s r s' t. induction fuel as [|fuel IH]; intros i s r s' t Hb H.
  - cbn in H. injection H as <- <- <-. split; [reflexivity|]. split; [exists []|]; reflexivity.
  - cbn [init_loop] in H.
    apply bind_inv in H as [(msg & s1 & H1 & _)|(a & s1 & t1 & t2 & H1 & H2 & ->)];
      cbn in H1; [discriminate|]. injection H1 as <- <- <-.
    destruct (nth_error (initfuncs s) i) as [pf|] eqn:En;
      [|apply nth_error_None in En; lia].
    rewrite (skipn_nth_error _ _ _ En). cbn [firstn].
    apply bind_inv in H2 as [(msg & s2 & H3 & -> & ->)|(u & s2 & t3 & t4 & H3 & H4 & ->)].
    + apply bind_inv in H3 as [(msg' & s3 & H5 & _)|(u & s3 & t5 & t6 & H5 & H6 & ->)];
        cbn in H5; [discriminate|]. injection H5 as <- <- <-.
      destruct (call_frame _ _ _ _ _ H6) as (_ & _ & I1 & _).
      destruct (call_events _ _ _ _ _ H6) as [_ F1].
      cbn. rewrite (init_calls_executed_only _ F1).
      split; [exact I1|]. split; [|discriminate].
      exists (firstn fuel (skipn (S i) (initfuncs s))). reflexivity.
    + apply bind_inv in H3 as [(msg' & s3 & H5 & _)|(u' & s3 & t5 & t6 & H5 & H6 & ->)];
        cbn in H5; [discriminate|]. injection H5 as <- <- <-.
      destruct (call_frame _ _ _ _ _ H6) as (_ & _ & I1 & _).
      destruct (call_events _ _ _ _ _ H6) as [_ F1].
      rewrite <- I1 in Hb.
      destruct (IH (S i) s2 _ _ _ ltac:(lia) H4) as (I2 & [rest Hr] & Hok).
      rewrite I1 in Hr, Hok.
      cbn. rewrite init_calls_app, (init_calls_executed_only _ F1). cbn.
      split; [congruence|]. split.
      * exists rest. rewrite Hr. reflexivity.
      * intros Hr'. rewrite (Hok Hr'). reflexivity.
Qed.

Lemma init_loop_closed i fuel s r s' t :
  init_loop i fuel s = (r, s', t) -> executech_closed s' = executech_closed s.
Proof.
  revert i s r s' t. induction fuel as [|fuel IH]; intros i s r s' t H.
  - cbn in H. injection H as <- <- <-. reflexivity.
  - cbn [init_loop] in H.
    apply bind_inv in H as [(msg & s1 & H1 & _)|(a & s1 & t1 & t2 & H1 & H2 & ->)];
      cbn in H1; [discriminate|]. injection H1 as <- <- <-.
    destruct (nth_error (initfuncs s) i) as [pf|].
    + apply bind_inv in H2 as [(msg & s2 & H3 & -> & ->)|(u & s2 & t3 & t4 & H3 & H4 & ->)].
      * apply bind_inv in H3 as [(msg' & s3 & H5 & _)|(u & s3 & t5 & t6 & H5 & H6 & ->)];
          cbn in H5; [discriminate|]. injection H5 as <- <- <-.
        destruct (call_frame _ _ _ _ _ H6) as (_ & C & _). exact C.
      * apply bind_inv in H3 as [(msg' & s3 & H5 & _)|(u' & s3 & t5 & t6 & H5 & H6 & ->)];
          cbn in H5; [discriminate|]. injection H5 as <- <- <-.
        destruct (call_frame _ _ _ _ _ H6) as (_ & C & _).
        rewrite (IH _ _ _ _ _ H4). exact C.
    + cbn in H2. injection H2 as <- <- <-. reflexivity.
Qed.

(** ** After [executed] is 1, [executech] never changes *)

Lemma run_op_after_executed_closed o s r s' t :
  executed s = 1 -> run_op o s = (r, s', t) -> executech_closed s' = executech_closed s.
Proof.
  intros He H. destruct o as [p f|f|p f|f| | |code]; cbn [run_op] in H.
  - destruct (OnExitWithPriority_frame _ _ _ _ _ _ H) as (_ & C & _). exact C.
  - unfold OnExit in H.
    apply bind_inv in H as [(msg & s1 & H1 & _)|(a & s1 & t1 & t2 & H1 & H2 & ->)];
      cbn in H1; [discriminate|]. injection H1 as <- <- <-.
    destruct (OnExitWithPriority_frame _ _ _ _ _ _ H2) as (_ & C & _). exact C.
  - cbn in H. injection H as <- <- <-. reflexivity.
  - cbn in H. injection H as <- <- <-. reflexivity.
  - unfold Init in H.
    apply bind_inv in H as [(msg & s1 & H1 & _)|(a & s1 & t1 & t2 & H1 & H2 & ->)];
      cbn in H1; [discriminate|]. injection H1 as <- <- <-.
    exact (init_loop_closed _ _ _ _ _ _ H2).
  - unfold Execute in H. rewrite execute_again in H by lia. injection H as <- <- <-. reflexivity.
  - unfold Exit in H. unfold bind at 1 in H. rewrite execute_again in H by lia.
    cbn in H. injection H as <- <- <-. reflexivity.
Qed.

Lemma run_ops_after_executed_closed ops s r s' t :
  executed s = 1 -> run_ops ops s = (r, s', t) -> executech_closed s' = executech_closed s.
Proof.
  revert s r s' t. induction ops as [|o ops IH]; intros s r s' t He H.
  - cbn in H. injection H as <- <- <-. reflexivity.
  - cbn [run_ops] in H.
    apply bind_inv in H as [(msg & s1 & H1 & -> & ->)|(a & s1 & t1 & t2 & H1 & H2 & ->)].
    + eapply run_op_after_executed_closed; eauto.
    + destruct (run_op_after_executed _ _ _ _ _ He H1) as [E1 _].
      rewrite (IH _ _ _ _ E1 H2). eapply run_op_after_executed_closed; eauto.
Qed.

(** ** Sequences of [OnExit] and [RegisterInit] calls *)

Lemma wrap64_small (z : Z) : -2^63 <= z < 2^63 -> wrap64 z = z.
Proof.
  intros H. unfold wrap64. rewrite Z.mod_small by lia. lia.
Qed.

Lemma counter_entries_funcs c fs : map Func (counter_entries c fs) = fs.
Proof.
  revert c. induction fs as [|f fs IH]; intros c; cbn; [reflexivity|]. rewrite IH. reflexivity.
Qed.

Lemma counter_entries_forallb (P : func -> bool) c fs :
  forallb (fun pf => P (Func pf)) (counter_entries c fs) = forallb P fs.
Proof.
  revert c. induction fs as [|f fs IH]; intros c; cbn; [reflexivity|]. rewrite IH. reflexivity.
Qed.

Lemma run_onexits_then (fs : list func) (rest : list op) s r s' t :
  StronglySorted prio_le (exitfuncs s) ->
  Forall (fun z => Prio z <= priority s) (exitfuncs s) ->
  -2^63 <= priority s -> priority s + Z.of_nat (List.length fs) < 2^63 ->
  run_ops (map OpOnExit fs ++ rest) s = (r, s', t) ->
  (exists msg, r = Panicking msg /\ t = []) \/
  (exists s1, run_ops rest s1 = (r, s', t) /\
     exitfuncs s1 = exitfuncs s ++ counter_entries (priority s) fs /\
     executed s1 = executed s).
Proof.
  revert s. induction fs as [|f fs IH]; intros s Hs Hf Hlo Hhi H.
  - right. exists s. rewrite app_nil_r. auto.
  - cbn [map app run_ops] in H. cbn [List.length] in Hhi.
    apply bind_inv in H as [(msg & s1 & H1 & -> & ->)|(u & s1 & t1 & t2 & H1 & H2 & ->)].
    + left. exists msg. unfold OnExit, bind, AddInt64_priority in H1.
      destruct f; cbn in H1; injection H1 as <- <- <-; auto.
    + assert (Hw : wrap64 (priority s + 1) = priority s + 1) by (apply wrap64_small; lia).
      unfold OnExit, bind, AddInt64_priority in H1.
      destruct f as [b|]; cbn -[wrap64 sort_Stable] in H1; [|discriminate].
      rewrite Hw in H1. injection H1 as <- <- <-.
      set (e := {| Func := Some b; Prio := priority s + 1 |}) in *.
      assert (Hins : sort_Stable (exitfuncs s ++ [e]) = exitfuncs s ++ [e]).
      { rewrite sort_Stable_app by exact Hs. apply ins_all_le.
        eapply Forall_impl; [|exact Hf]. intros z Hz. unfold e. cbn. cbv beta in Hz. lia. }
      rewrite Hins in H2.
      apply IH in H2; cbn [exitfuncs priority set_exitfuncs set_priority] in *.
      * destruct H2 as [(msg & -> & ->)|(s2 & H3 & E1 & E2)].
        -- left. exists msg. auto.
        -- right. exists s2. split; [exact H3|]. split; [|exact E2].
           rewrite E1, <- app_assoc. reflexivity.
      * rewrite <- Hins. apply sort_Stable_sorted.
      * apply Forall_app. split.
        -- eapply Forall_impl; [|exact Hf]. intros z Hz. cbv beta in Hz. lia.
        -- constructor; [unfold e; cbn; lia|constructor].
      * lia.
      * lia.
Qed.

Lemma run_registerinits_then (fs : list func) (rest : list op) s r s' t :
  StronglySorted prio_le (initfuncs s) ->
  Forall (fun z => Prio z <= initprio s) (initfuncs s) ->
  -2^63 <= initprio s -> initprio s + Z.of_nat (List.length fs) < 2^63 ->
  run_ops (map OpRegisterInit fs ++ rest) s = (r, s', t) ->
  exists s1, run_ops rest s1 = (r, s', t) /\
     initfuncs s1 = initfuncs s ++ counter_entries (initprio s) fs.
Proof.
  revert s. induction fs as [|f fs IH]; intros s Hs Hf Hlo Hhi H.
  - exists s. rewrite app_nil_r. auto.
  - cbn [map app run_ops] in H. cbn [List.length] in Hhi.
    assert (Hw : wrap64 (initprio s + 1) = initprio s + 1) by (apply wrap64_small; lia).
    apply bind_inv in H as [(msg & s1 & H1 & -> & ->)|(u & s1 & t1 & t2 & H1 & H2 & ->)];
      unfold RegisterInit, bind, AddInt64_initprio in H1;
      cbn -[wrap64 sort_Stable] in H1; [discriminate|].
    rewrite Hw in H1. injection H1 as <- <- <-.
    set (e := {| Func := f; Prio := initprio s + 1 |}) in *.
    assert (Hins : sort_Stable (initfuncs s ++ [e]) = initfuncs s ++ [e]).
    { rewrite sort_Stable_app by exact Hs. apply ins_all_le.
      eapply Forall_impl; [|exact Hf]. intros z Hz. unfold e. cbn. cbv beta in Hz. lia. }
    rewrite Hins in H2.
    apply IH in H2; cbn [initfuncs initprio set_initfuncs set_initprio] in *.
    + destruct H2 as (s2 & H3 & E1).
      exists s2. split; [exact H3|]. rewrite E1, <- app_assoc. reflexivity.
    + rewrite <- Hins. apply sort_Stable_sorted.
    + apply Forall_app. split.
      * eapply Forall_impl; [|exact Hf]. intros z Hz. cbv beta in Hz. lia.
      * constructor; [unfold e; cbn; lia|constructor].
    + lia.
    + lia.
Qed.

Lemma run_init_regs_then (regs : list (Z * func)) (rest : list op) s r s' t :
  run_ops (map init_reg_op regs ++ rest) s = (r, s', t) ->
  exists s1, run_ops rest s1 = (r, s', t) /\
    initfuncs s1 = fold_left (fun acc x => sort_Stable (acc ++ [reg_entry x])) regs (initfuncs s).
Proof.
  revert s. induction regs as [|[p f] regs IH]; intros s H.
  - exists s. auto.
  - cbn [map app run_ops] in H.
    apply bind_inv in H as [(msg & s1 & H1 & -> & ->)|(u & s1 & t1 & t2 & H1 & H2 & ->)];
      cbn in H1; [discriminate|]. injection H1 as <- <- <-.
    destruct (IH _ H2) as (s2 & H3 & E). exists s2. split; [exact H3|]. exact E.
Qed.

Lemma fold_sort_Stable (regs : list (Z * func)) (l : list priofunc) :
  fold_left (fun acc x => sort_Stable (acc ++ [reg_entry x])) regs (sort_Stable l) =
  sort_Stable (l ++ map reg_entry regs).
Proof.
  revert l. induction regs as [|x regs IH]; intros l; cbn.
  - rewrite app_nil_r. reflexivity.
  - rewrite sort_Stable_app by apply sort_Stable_sorted.
    rewrite <- sort_Stable_snoc, IH, <- app_assoc. reflexivity.
Qed.

Lemma Init_calls s r s' t :
  Init s = (r, s', t) ->
  initfuncs s' = initfuncs s /\
  (exists rest, init_calls t ++ rest = initfuncs s) /\
  (r = Ok tt -> init_calls t = initfuncs s).
Proof.
  unfold Init. intros H.
  apply bind_inv in H as [(msg & s1 & H1 & _)|(a & s1 & t1 & t2 & H1 & H2 & ->)];
    cbn in H1; [discriminate|]. injection H1 as <- <- <-.
  destruct (init_loop_calls 0 _ _ _ _ _ (le_n _) H2) as (I & [rest Hr] & Hok).
  cbn [skipn] in Hr, Hok. rewrite firstn_all in Hr, Hok. cbn.
  split; [exact I|]. split; [exists rest; exact Hr|exact Hok].
Qed.

(** * Claims *)

(** ** Concrete scenarios *)

Definition exit_scenario_ops : list op :=
  [OpOnExitWithPriority 1 (Some [Write "1"]); OpOnExitWithPriority 2 (Some [Write "2"]);
   OpOnExitWithPriority 3 (Some [Write "3"]); OpOnExitWithPriority 3 (Some [Write "4"]);
   OpOnExitWithPriority 2 (Some [Write "5"]); OpOnExitWithPriority 1 (Some [Write "6"]);
   OpExecute].

Definition init_scenario_ops : list op :=
  [OpRegisterInit (Some [Println "init1"]); OpRegisterInit (Some [Println "init2"]);
   OpRegisterInitWithPriority 20 (Some [Println "init3"]);
   OpRegisterInitWithPriority 10 (Some [Println "init4"]);
   OpRegisterInitWithPriority 10 (Some [Println "init5"]);
   OpRegisterInitWithPriority 30 (Some [Println "init6"]);
   OpRegisterInit (Some [Println "init7"]); OpInit].

Definition nl : string := String (ascii_of_nat 10) "".

(** Two callbacks of the same priority, registered "a" first and "b" second. *)
Definition same_priority_ops : list op :=
  [OpOnExitWithPriority 1 (Some [Write "a"]); OpOnExitWithPriority 1 (Some [Write "b"]); OpExecute].

(** C1 (counterexample): the two callbacks of priority 1, registered "a" then
    "b", run "b" first: equal-priority callbacks do not run in registration
    order. *)
Lemma C1_registration_order_counterexample :
  buf (st_of (run_ops same_priority_ops initial_state)) = "ba" /\
  exit_calls (tr_of (run_ops same_priority_ops initial_state)) =
    [{| Func := Some [Write "b"]; Prio := 1 |}; {| Func := Some [Write "a"]; Prio := 1 |}].
Proof. split; vm_compute; reflexivity. Qed.

(** C1 (amended): for any sequence of [OnExitWithPriority] registrations
    whose callbacks do not themselves register exit callbacks, followed by
    [Execute()], the callbacks of any priority [q] are called latest-registered
    first: the calls of priority [q] are a prefix of the registrations of
    priority [q] in reverse order, all of them when no callback panicked. *)
Theorem execute_equal_priority_reverse_registration (regs : list (Z * func)) (q : Z) :
  forallb (fun x => no_exit_registration (snd x)) regs = true ->
  let '(r, _, t) := run_ops (map reg_op regs ++ [OpExecute]) initial_state in
  (exists rest, filter (prio_is q) (exit_calls t) ++ rest =
                rev (filter (prio_is q) (map reg_entry regs))) /\
  (r = Ok tt -> filter (prio_is q) (exit_calls t) = rev (filter (prio_is q) (map reg_entry regs))).
Proof.
  intros Hn. destruct (run_ops _ _) as [[r s'] t] eqn:H.
  apply run_regs_then in H as [(msg & -> & ->)|(s1 & H & Ex & Ee & _)].
  - split; [|discriminate]. eexists. reflexivity.
  - rewrite run_ops_single in H. cbn [run_op] in H. unfold Execute in H.
    assert (Hf : forallb (fun pf => no_exit_registration (Func pf)) (exitfuncs s1) = true).
    { apply forallb_forall. intros z Hz. rewrite Ex in Hz.
      apply regs_fold_In in Hz as [[]|Hz]. apply in_map_iff in Hz as (x & <- & Hx).
      rewrite forallb_forall in Hn. apply Hn, Hx. }
    destruct (execute_no_registration _ _ _ _ Ee Hf H) as [[rest Hr] Hok].
    assert (Hq : filter (prio_is q) (rev (exitfuncs s1)) =
                 rev (filter (prio_is q) (map reg_entry regs))).
    { rewrite filter_rev, Ex, regs_fold_filter by constructor. reflexivity. }
    split.
    + exists (filter (prio_is q) rest). rewrite <- filter_app, Hr. exact Hq.
    + intros Hok'. rewrite (Hok Hok'). exact Hq.
Qed.

(** C2: registering priorities 1,2,3,3,2,1 writing "1".."6" and calling
    [Execute()] leaves the buffer equal to "435261". *)
Theorem C2_exit_scenario_buffer :
  buf (st_of (run_ops exit_scenario_ops initial_state)) = "435261".
Proof. vm_compute. reflexivity. Qed.

(** C7: the init example prints init4, init5, init3, init6, init1, init2,
    init7 in this order. *)
Theorem C7_init_scenario_output :
  buf (st_of (run_ops init_scenario_ops initial_state)) =
    ("init4" ++ nl ++ "init5" ++ nl ++ "init3" ++ nl ++ "init6" ++ nl ++
     "init1" ++ nl ++ "init2" ++ nl ++ "init7" ++ nl)%string.
Proof. vm_compute. reflexivity. Qed.

(** C3: for every sequence of [OnExitWithPriority] registrations followed by
    [Execute()], of two called exit callbacks the one with the strictly higher
    priority is called first. *)
Theorem execute_descending_priority (regs : list (Z * func)) :
  let t := tr_of (run_ops (map reg_op regs ++ [OpExecute]) initial_state) in
  forall i j a b, (i < j)%nat ->
    nth_error (exit_calls t) i = Some a -> nth_error (exit_calls t) j = Some b ->
    ~ (Prio a < Prio b).
Proof.
  cbv zeta. destruct (run_ops _ _) as [[r s'] t] eqn:H. cbn [tr_of snd].
  intros i j a b Hij Ha Hb.
  apply run_regs_then in H as [(msg & _ & ->)|(s1 & H & Ex & _ & _)]; [destruct i; discriminate|].
  rewrite run_ops_single in H. cbn [run_op] in H. unfold Execute in H.
  assert (Hs : StronglySorted prio_le (exitfuncs s1)) by (rewrite Ex; apply regs_fold_sorted; constructor).
  pose proof (StronglySorted_nth _ _ _ _ _ _ (execute_descending _ _ _ _ Hs H) Hij Ha Hb) as Hab.
  cbv beta in Hab. lia.
Qed.

(** ** Repeated execution *)

Definition after_execute : state := st_of (run_ops [OpExecute] initial_state).

(** C4 (counterexample): after [Execute()] has completed, [Exit(1)] calls no
    exit callback but still calls [ExitFunc(1)], an observable effect. *)
Lemma C4_exit_after_execute_counterexample :
  Exit 1 after_execute = (Ok tt, after_execute, [EvExitFunc 1]) /\
  tr_of (Exit 1 after_execute) <> [].
Proof. split; vm_compute; [reflexivity|discriminate]. Qed.

(** C4 (amended): once [executed] is 1 (after [Execute()] has run), a
    further [Execute()] changes nothing and produces no event, and a further
    [Exit(code)] calls no exit callback and changes no state, but calls
    [ExitFunc(code)]. *)
Theorem execute_exit_after_executed (s : state) (code : Z) :
  executed s = 1 ->
  Execute s = (Ok tt, s, []) /\ Exit code s = (Ok tt, s, [EvExitFunc code]).
Proof.
  intros He. unfold Execute. rewrite execute_again by lia. split; [reflexivity|].
  unfold Exit, bind at 1. rewrite execute_again by lia. reflexivity.
Qed.

(** ** Nil callbacks *)

(** C5 (code_bug): [OnExitWithPriority(0, nil)] panics, but
    [RegisterInitWithPriority(0, nil)] (and its alias [OnInitWithPriority])
    returns normally and stores the nil callback; the failure only comes later
    as a nil-function call inside [Init()]. *)
Theorem C5_nil_init_callback_accepted :
  OnExitWithPriority 0 None initial_state =
    (Panicking "atexit.OnExitWithPriority: callback function is nil", initial_state, []) /\
  RegisterInitWithPriority 0 None initial_state =
    (Ok tt, set_initfuncs [{| Func := None; Prio := 0 |}] initial_state, []) /\
  OnInitWithPriority 0 None initial_state =
    (Ok tt, set_initfuncs [{| Func := None; Prio := 0 |}] initial_state, []) /\
  res_of (run_ops [OpRegisterInitWithPriority 0 None; OpInit] initial_state) =
    Panicking "runtime error: invalid memory address or nil pointer dereference".
Proof. repeat split; vm_compute; reflexivity. Qed.

(** ** Panicking callbacks *)

Definition panicking_exit_ops : list op :=
  [OpOnExitWithPriority 1 (Some [Write "1"]); OpOnExitWithPriority 2 (Some [Panic "boom"]);
   OpExecute].

Definition panicking_init_ops : list op :=
  [OpRegisterInitWithPriority 1 (Some [Panic "boom"]);
   OpRegisterInitWithPriority 2 (Some [Write "2"]); OpInit].

(** C6 (code_bug): with an exit callback of priority 2 that panics and one of
    priority 1 that writes "1", [Execute()] propagates the panic: the
    priority-1 callback never runs and [executech] stays open, because
    [defer recover()] does not stop the panic.  On the init side the panic
    propagates as the claim says and the later init callback does not run. *)
Theorem C6_exit_panic_not_recovered :
  res_of (run_ops panicking_exit_ops initial_state) = Panicking "boom" /\
  buf (st_of (run_ops panicking_exit_ops initial_state)) = "" /\
  exit_calls (tr_of (run_ops panicking_exit_ops initial_state)) =
    [{| Func := Some [Panic "boom"]; Prio := 2 |}] /\
  executech_closed (st_of (run_ops panicking_exit_ops initial_state)) = false /\
  res_of (run_ops panicking_init_ops initial_state) = Panicking "boom" /\
  buf (st_of (run_ops panicking_init_ops initial_state)) = "".
Proof. repeat split; vm_compute; reflexivity. Qed.

(** ** Wait *)

Definition reentrant_registration_ops : list op :=
  [OpOnExitWithPriority 1 (Some [Write "x"]);
   OpOnExitWithPriority 2 (Some [CallOnExitWithPriority 0 (Some [Write "y"])]);
   OpExecute].

(** C8 (code_bug): [Wait()] is documented to wait until all the registered
    exit functions have finished, and [Execute()] to call all of them.  Here
    the priority-2 callback registers a priority-0 callback while [execute]
    runs; the registry shifts under the running loop, whose bound was fixed at
    the start, the last iteration calls the new callback, and the priority-1
    callback registered before [Execute()] is never called, yet [executech]
    is closed and [Wait()] returns. *)
Lemma C8_wait_returns_with_skipped_callback :
  Wait_returns (st_of (run_ops reentrant_registration_ops initial_state)) = true /\
  ~ In {| Func := Some [Write "x"]; Prio := 1 |}
       (exit_calls (tr_of (run_ops reentrant_registration_ops initial_state))) /\
  buf (st_of (run_ops reentrant_registration_ops initial_state)) = "y".
Proof.
  split; [vm_compute; reflexivity|]. split; [|vm_compute; reflexivity].
  vm_compute. intros [H|[H|[]]]; discriminate.
Qed.

(** ** Registration after execution *)

(** C9: once [executed] is 1, [OnExitWithPriority] with a non-nil callback
    returns normally and stores the callback in the registry, and no
    sequence of later calls of the package API (including [Execute()] and
    [Exit(code)]) calls any exit callback. *)
Theorem late_registration_never_runs (s : state) (p : Z) (b : list stmt) (ops : list op) :
  executed s = 1 ->
  let s1 := set_exitfuncs (sort_Stable (exitfuncs s ++ [{| Prio := p; Func := Some b |}])) s in
  OnExitWithPriority p (Some b) s = (Ok tt, s1, []) /\
  In {| Prio := p; Func := Some b |} (exitfuncs s1) /\
  exit_calls (tr_of (run_ops ops s1)) = [].
Proof.
  intros He. cbv zeta. split; [reflexivity|]. split.
  - cbn [exitfuncs set_exitfuncs]. unfold sort_Stable, insertionSort.
    apply in_rev. rewrite rev_involutive, fold_left_app. cbn.
    generalize (fold_left (fun racc x => sink x racc) (exitfuncs s) []) as racc.
    induction racc as [|w racc IH]; cbn; [left; reflexivity|].
    destruct (Less _ w); cbn; [right; exact IH|left; reflexivity].
  - destruct (run_ops ops _) as [[r s'] t] eqn:H.
    refine (proj2 (run_ops_after_executed ops _ r s' t _ H)). exact He.
Qed.

(** ** Executed *)

Definition observe_ops : list op := [OpOnExitWithPriority 0 (Some [CallExecuted]); OpExecute].

(** C10: every [Executed()] called by an exit callback during [execute]
    returns true (the flag is set by the compare-and-swap before the loop);
    once the flag is 1 it stays 1 through every later call of the package API;
    and a callback observes true before [executech] is closed, so
    [Executed() == true] does not mean the callbacks have finished. *)
Theorem executed_before_callbacks (s : state) (ops : list op) :
  (forall v, In (EvExecuted v) (tr_of (execute s)) -> v = true) /\
  (executed s = 1 -> executed (st_of (run_ops ops s)) = 1) /\
  tr_of (run_ops observe_ops initial_state) =
    [EvCancel; EvCallExit {| Func := Some [CallExecuted]; Prio := 0 |};
     EvExecuted true; EvClose].
Proof.
  split; [|split; [|vm_compute; reflexivity]].
  - intros v. destruct (Z.eq_dec (executed s) 0) as [E|E].
    + rewrite execute_first by exact E.
      destruct (execute_loop _ _) as [[r1 s1] t1] eqn:Hl.
      destruct (execute_loop_flags _ _ _ _ _ Hl) as (_ & _ & V1 & _).
      cbn in V1. destruct r1; cbn.
      * intros [Hv|Hv]; [discriminate|]. apply in_app_or in Hv as [Hv|[Hv|[]]]; [|discriminate].
        exact (V1 v Hv).
      * intros [Hv|Hv]; [discriminate|]. exact (V1 v Hv).
    + rewrite execute_again by exact E. intros [].
  - intros He. destruct (run_ops ops s) as [[r s'] t] eqn:H.
    exact (proj1 (run_ops_after_executed _ _ _ _ _ He H)).
Qed.

(** * Witnesses at concrete inputs *)

Definition same_priority_regs : list (Z * func) := [(1, Some [Write "a"]); (1, Some [Write "b"])].

Lemma C1_amended_witness :
  forallb (fun x => no_exit_registration (snd x)) same_priority_regs = true /\
  (let '(r, _, t) := run_ops (map reg_op same_priority_regs ++ [OpExecute]) initial_state in
   (exists rest, filter (prio_is 1) (exit_calls t) ++ rest =
                 rev (filter (prio_is 1) (map reg_entry same_priority_regs))) /\
   (r = Ok tt -> filter (prio_is 1) (exit_calls t) =
                 rev (filter (prio_is 1) (map reg_entry same_priority_regs)))).
Proof.
  split; [reflexivity|].
  apply (execute_equal_priority_reverse_registration same_priority_regs 1). reflexivity.
Defined.

Definition two_priority_regs : list (Z * func) := [(1, Some [Write "x"]); (2, Some [Write "y"])].

Lemma C3_witness :
  let t := tr_of (run_ops (map reg_op two_priority_regs ++ [OpExecute]) initial_state) in
  (0 < 1)%nat /\
  nth_error (exit_calls t) 0 = Some {| Func := Some [Write "y"]; Prio := 2 |} /\
  nth_error (exit_calls t) 1 = Some {| Func := Some [Write "x"]; Prio := 1 |} /\
  ~ (Prio {| Func := Some [Write "y"]; Prio := 2 |} < Prio {| Func := Some [Write "x"]; Prio := 1 |}).
Proof.
  cbv zeta. split; [lia|]. split; [vm_compute; reflexivity|]. split; [vm_compute; reflexivity|].
  apply (execute_descending_priority two_priority_regs 0 1); [lia|vm_compute; reflexivity..].
Defined.

Lemma C4_amended_witness :
  executed after_execute = 1 /\
  Execute after_execute = (Ok tt, after_execute, []) /\
  Exit 3 after_execute = (Ok tt, after_execute, [EvExitFunc 3]).
Proof.
  split; [vm_compute; reflexivity|].
  apply execute_exit_after_executed. vm_compute. reflexivity.
Defined.

Definition one_registered : state :=
  st_of (run_ops [OpOnExitWithPriority 1 (Some [Write "x"])] initial_state).

Lemma C9_witness :
  executed after_execute = 1 /\
  (let s1 := set_exitfuncs (sort_Stable (exitfuncs after_execute ++
                 [{| Prio := 0; Func := Some [Write "z"] |}])) after_execute in
   OnExitWithPriority 0 (Some [Write "z"]) after_execute = (Ok tt, s1, []) /\
   In {| Prio := 0; Func := Some [Write "z"] |} (exitfuncs s1) /\
   exit_calls (tr_of (run_ops [OpExecute; OpExit 0] s1)) = []).
Proof.
  split; [vm_compute; reflexivity|].
  apply late_registration_never_runs. vm_compute. reflexivity.
Defined.

Definition observer_registered : state :=
  st_of (run_ops [OpOnExitWithPriority 0 (Some [CallExecuted])] initial_state).

Definition later_ops : list op :=
  [OpOnExitWithPriority 1 (Some [Write "q"]); OpRegisterInit (Some [CallExecuted]);
   OpInit; OpExecute; OpExit 0].

Lemma C10_witness :
  executed observer_registered = 0 /\
  In (EvExecuted true) (tr_of (execute observer_registered)) /\
  (forall v, In (EvExecuted v) (tr_of (execute observer_registered)) -> v = true) /\
  executed after_execute = 1 /\
  executed (st_of (run_ops later_ops after_execute)) = 1.
Proof.
  split; [vm_compute; reflexivity|].
  split; [vm_compute; right; right; left; reflexivity|].
  split; [exact (proj1 (executed_before_callbacks observer_registered []))|].
  assert (He : executed after_execute = 1) by (vm_compute; reflexivity).
  split; [exact He|].
  exact (proj1 (proj2 (executed_before_callbacks after_execute later_ops)) He).
Defined.

(** * Further properties of the code *)

(** ** sort.Stable on priofuncs *)

(** X1: [sort.Stable] with [Less] comparing [Prio] returns the entries it
    was given, ordered by ascending priority, with the entries of each
    priority in their original relative order. *)
Theorem sort_Stable_sorted_permutation_stable (l : list priofunc) :
  StronglySorted prio_le (sort_Stable l) /\ Permutation l (sort_Stable l) /\
  (forall q, filter (prio_is q) (sort_Stable l) = filter (prio_is q) l).
Proof.
  split; [apply sort_Stable_sorted|]. split; [apply sort_Stable_perm|].
  intros q. apply sort_Stable_filter.
Qed.

(** ** Registration of exit callbacks *)

(** X2: on a registry sorted by ascending priority (as every registration
    leaves it), [OnExitWithPriority(p, f)] with non-nil [f] returns normally
    and inserts the new entry after every entry of priority at most [p] and
    before every entry of higher priority; nothing else of the state changes. *)
Theorem OnExitWithPriority_inserts_after_lower_or_equal (p : Z) (b : list stmt) (s : state) :
  StronglySorted prio_le (exitfuncs s) ->
  exists l1 l2,
    exitfuncs s = l1 ++ l2 /\
    OnExitWithPriority p (Some b) s =
      (Ok tt, set_exitfuncs (l1 ++ {| Func := Some b; Prio := p |} :: l2) s, []) /\
    Forall (fun z => Prio z <= p) l1 /\ Forall (fun z => p < Prio z) l2.
Proof.
  intros Hs. destruct (ins_split {| Func := Some b; Prio := p |} _ Hs)
    as (l1 & l2 & E & Ei & F1 & F2).
  exists l1, l2. split; [exact E|]. split; [|split; assumption].
  unfold OnExitWithPriority, modify. rewrite sort_Stable_app by exact Hs. rewrite Ei. reflexivity.
Qed.

(** X3: [OnExitWithPriority(p, nil)] panics and changes nothing, while
    [OnExit(nil)] panics with the same message after it has already run
    [atomic.AddInt64(&priority, 1)]: the counter holds its int64 successor
    (wrapping to -2^63 at the largest int64), which always differs from the
    old value, so the nil registration consumes a priority. *)
Theorem OnExit_nil_consumes_priority (p : Z) (s : state) :
  OnExitWithPriority p None s =
    (Panicking "atexit.OnExitWithPriority: callback function is nil", s, []) /\
  OnExit None s =
    (Panicking "atexit.OnExitWithPriority: callback function is nil",
     set_priority (wrap64 (priority s + 1)) s, []) /\
  wrap64 (priority s + 1) <> priority s.
Proof.
  split; [reflexivity|]. split; [reflexivity|].
  unfold wrap64. rewrite Z.mod_eq by lia.
  set (q := (priority s + 1 + 2 ^ 63) / 2 ^ 64). lia.
Qed.

(** X4: starting with an empty registry and a counter [c] that does not
    overflow, successive [OnExit(f1) ... OnExit(fn)] store the priorities
    [c+1 .. c+n], so a following [Execute()] calls the callbacks (when they do
    not register exit callbacks) latest-registered first: its calls are a
    prefix of the reversed registrations, all of them when nothing panics. *)
Theorem OnExit_sequence_runs_latest_first (fs : list func) (s : state) :
  executed s = 0 -> exitfuncs s = [] ->
  -2^63 <= priority s -> priority s + Z.of_nat (List.length fs) < 2^63 ->
  forallb no_exit_registration fs = true ->
  let '(r, _, t) := run_ops (map OpOnExit fs ++ [OpExecute]) s in
  (exists rest, exit_calls t ++ rest = rev (counter_entries (priority s) fs)) /\
  (r = Ok tt -> exit_calls t = rev (counter_entries (priority s) fs)).
Proof.
  intros He Hx Hlo Hhi Hn. destruct (run_ops _ _) as [[r s'] t] eqn:H.
  apply run_onexits_then in H; [|rewrite Hx; constructor..|exact Hlo|exact Hhi].
  destruct H as [(msg & -> & ->)|(s1 & H & E1 & E2)].
  - split; [eexists; reflexivity|discriminate].
  - rewrite run_ops_single in H. cbn [run_op] in H. unfold Execute in H.
    rewrite Hx in E1. cbn [app] in E1.
    assert (Hf : forallb (fun pf => no_exit_registration (Func pf)) (exitfuncs s1) = true).
    { rewrite E1, counter_entries_forallb. exact Hn. }
    assert (E0 : executed s1 = 0) by congruence.
    rewrite <- E1. exact (execute_no_registration s1 _ _ _ E0 Hf H).
Qed.

(** When the counter is at the largest int64 and no entry has priority
    -2^63, [OnExit(f)] puts [f] at the front of the registry. *)
Lemma OnExit_at_max_front (b : list stmt) (s : state) :
  priority s = 2^63 - 1 ->
  Forall (fun z => -2^63 < Prio z) (exitfuncs s) ->
  exists rest,
    Permutation (exitfuncs s) rest /\
    OnExit (Some b) s =
      (Ok tt, set_exitfuncs ({| Func := Some b; Prio := -2^63 |} :: rest)
                (set_priority (-2^63) s), []).
Proof.
  intros Hp Hf. exists (sort_Stable (exitfuncs s)). split; [apply sort_Stable_perm|].
  unfold OnExit, bind, AddInt64_priority, OnExitWithPriority, modify. rewrite Hp.
  assert (Hw : wrap64 (2^63 - 1 + 1) = -2^63) by reflexivity. rewrite Hw.
  cbn [set_priority exitfuncs]. rewrite sort_Stable_snoc.
  assert (Hg : Forall (fun z => -2^63 < Prio z) (sort_Stable (exitfuncs s))).
  { apply Forall_forall. intros z Hz. rewrite Forall_forall in Hf. apply Hf.
    eapply Permutation_in; [apply Permutation_sym, sort_Stable_perm|exact Hz]. }
  destruct (sort_Stable (exitfuncs s)) as [|y l] eqn:Es; [reflexivity|].
  inversion Hg as [|? ? Hy _]; subst. cbn [ins]. unfold Less. cbn [Prio].
  destruct (-2^63 <? Prio y) eqn:E; [reflexivity|]. apply Z.ltb_ge in E. lia.
Qed.

(** X5: when the [priority] counter is at the largest int64, the next
    [OnExit(f)] wraps it to -2^63 and registers [f] with that priority (the
    registry then holds the old entries and [f]).  If moreover no registered
    entry has priority -2^63 and no callback registers exit callbacks, a
    following [Execute()] that completes calls [f] last. *)
Theorem OnExit_priority_wraps_to_last (b : list stmt) (s : state) :
  priority s = 2^63 - 1 ->
  (exists l,
     Permutation ({| Func := Some b; Prio := -2^63 |} :: exitfuncs s) l /\
     OnExit (Some b) s = (Ok tt, set_exitfuncs l (set_priority (-2^63) s), [])) /\
  (Forall (fun z => -2^63 < Prio z) (exitfuncs s) -> executed s = 0 ->
   forallb (fun pf => no_exit_registration (Func pf)) (exitfuncs s) = true ->
   no_exit_registration (Some b) = true ->
   let '(r, _, t) := run_ops [OpOnExit (Some b); OpExecute] s in
   r = Ok tt -> exists t0, exit_calls t = t0 ++ [{| Func := Some b; Prio := -2^63 |}]).
Proof.
  intros Hp. split.
  - exists (sort_Stable (exitfuncs s ++ [{| Func := Some b; Prio := -2^63 |}])). split.
    + etransitivity; [apply Permutation_cons_append|apply sort_Stable_perm].
    + unfold OnExit, bind, AddInt64_priority, OnExitWithPriority, modify. rewrite Hp.
      assert (Hw : wrap64 (2^63 - 1 + 1) = -2^63) by reflexivity. rewrite Hw. reflexivity.
  - intros Hf He Hn Hb.
    destruct (OnExit_at_max_front b s Hp Hf) as (rest & Hperm & Ho).
    set (s1 := set_exitfuncs ({| Func := Some b; Prio := -2^63 |} :: rest) (set_priority (-2^63) s)) in *.
    assert (Hr : run_ops [OpOnExit (Some b); OpExecute] s =
                 let '(r, s', t) := execute s1 in (r, s', [] ++ t)).
    { change (run_ops [OpOnExit (Some b); OpExecute] s)
        with (bind (OnExit (Some b)) (fun _ => run_ops [OpExecute]) s).
      unfold bind at 1. rewrite Ho. rewrite run_ops_single. reflexivity. }
    rewrite Hr. destruct (execute s1) as [[r s'] t] eqn:Hx. intros ->.
    assert (E1 : executed s1 = 0) by exact He.
    assert (F1 : forallb (fun pf => no_exit_registration (Func pf)) (exitfuncs s1) = true).
    { cbn [s1 exitfuncs set_exitfuncs]. cbn [forallb Func]. rewrite Hb. cbn.
      rewrite <- Hn. destruct (forallb _ rest) eqn:E.
      - symmetry. apply forallb_forall. intros z Hz. rewrite forallb_forall in E.
        apply E. eapply Permutation_in; [exact Hperm|exact Hz].
      - symmetry. apply not_true_iff_false. intros H. apply not_true_iff_false in E. apply E.
        apply forallb_forall. intros z Hz. rewrite forallb_forall in H.
        apply H. eapply Permutation_in; [apply Permutation_sym, Hperm|exact Hz]. }
    destruct (execute_no_registration s1 _ _ _ E1 F1 Hx) as [_ Hok].
    exists (rev rest). cbn [app]. rewrite (Hok eq_refl). reflexivity.
Qed.

(** ** execute, Context and Exit *)

(** X6: the first [execute] cancels the context (closing [Done()]) before
    it calls any exit callback: its trace starts with the cancellation; and
    afterwards the context is cancelled and [Executed()] is true even when an
    exit callback panicked. *)
Theorem execute_cancels_context_first (s : state) :
  executed s = 0 ->
  let '(_, s', t) := execute s in
  (exists t', t = EvCancel :: t') /\ ctx_cancelled s' = true /\ executed s' = 1.
Proof.
  intros He. rewrite execute_first by exact He.
  destruct (execute_loop _ _) as [[r1 s1] t1] eqn:Hl.
  destruct (execute_loop_events _ _ _ _ _ Hl) as (C & _ & _).
  destruct (execute_loop_flags _ _ _ _ _ Hl) as (E & _ & _ & _).
  cbn in C, E. destruct r1; cbn; (split; [eexists; reflexivity|]); split; assumption.
Qed.

(** X7: [execute] calls at most as many exit callbacks as the registry held
    when it started: the loop bound is computed once, so callbacks registered
    during the run never add iterations. *)
Theorem execute_calls_at_most_registered (s : state) :
  (List.length (exit_calls (tr_of (execute s))) <= List.length (exitfuncs s))%nat.
Proof.
  destruct (Z.eq_dec (executed s) 0) as [E|E].
  - rewrite execute_first by exact E.
    destruct (execute_loop _ _) as [[r1 s1] t1] eqn:Hl.
    destruct (execute_loop_events _ _ _ _ _ Hl) as (_ & _ & L).
    destruct r1; cbn; rewrite ?exit_calls_app; cbn; rewrite ?length_app; cbn; lia.
  - rewrite execute_again by exact E. cbn. lia.
Qed.

(** X8: if an exit callback panics during the first [execute], [executed]
    is already 1 and [executech] is still open, and no later sequence of
    package calls ([Execute()], [Exit(code)], registrations, [Init()]) ever
    calls an exit callback again or closes [executech]: the remaining
    callbacks are lost and [Wait()] never returns. *)
Theorem execute_panic_is_final (s s' : state) (msg : string) (t : list event) :
  executed s = 0 -> executech_closed s = false ->
  execute s = (Panicking msg, s', t) ->
  executed s' = 1 /\
  forall ops, exit_calls (tr_of (run_ops ops s')) = [] /\
              Wait_returns (st_of (run_ops ops s')) = false.
Proof.
  intros He Hc H. rewrite execute_first in H by exact He.
  destruct (execute_loop _ _) as [[[u|m] s1] t1] eqn:Hl; [discriminate|].
  injection H as <- <- <-.
  destruct (execute_loop_flags _ _ _ _ _ Hl) as (E & C & _ & _). cbn in E, C.
  split; [exact E|]. intros ops.
  destruct (run_ops ops s1) as [[r2 s2] t2] eqn:H2. cbn.
  split; [exact (proj2 (run_ops_after_executed _ _ _ _ _ E H2))|].
  unfold Wait_returns. rewrite (run_ops_after_executed_closed _ _ _ _ _ E H2), C. exact Hc.
Qed.

(** X9: for callbacks that do not call [Exit] themselves, [Exit(code)]
    either calls [ExitFunc(code)] exactly once, as its very last step, and
    returns normally, or (when an exit callback panics) propagates the panic
    without ever calling [ExitFunc]. *)
Theorem Exit_calls_ExitFunc_last_or_panics (code : Z) (s : state) :
  let '(r, _, t) := Exit code s in
  (r = Ok tt /\ exists t0, t = t0 ++ [EvExitFunc code] /\ forall c, ~ In (EvExitFunc c) t0) \/
  (exists msg, r = Panicking msg /\ forall c, ~ In (EvExitFunc c) t).
Proof.
  assert (Hx : forall t, Forall loop_event t -> forall c, ~ In (EvExitFunc c) t).
  { intros t F c Hin. rewrite Forall_forall in F. destruct (F _ Hin) as [[v Hv]|[pf Hv]];
      discriminate. }
  unfold Exit, bind at 1.
  destruct (Z.eq_dec (executed s) 0) as [E|E].
  - rewrite execute_first by exact E.
    destruct (execute_loop _ _) as [[[u|m] s1] t1] eqn:Hl;
      destruct (execute_loop_events _ _ _ _ _ Hl) as (_ & F & _).
    + left. cbn. split; [reflexivity|]. exists (EvCancel :: t1 ++ [EvClose]).
      split; [reflexivity|].
      intros c Hin. destruct Hin as [Hin|Hin]; [discriminate|].
      apply in_app_or in Hin as [Hin|[Hin|[]]]; [exact (Hx _ F c Hin)|discriminate].
    + right. exists m. split; [reflexivity|]. intros c [Hin|Hin]; [discriminate|].
      exact (Hx _ F c Hin).
  - rewrite execute_again by exact E. left. cbn. split; [reflexivity|].
    exists []. split; [reflexivity|]. intros c [].
Qed.

(** X10: if no exit callback can panic (none contains a [panic], none
    registers a nil callback, and the same holds for every callback they
    register), the first [execute] returns normally and closes [executech], so
    [Wait()] returns; this holds also when callbacks register further exit
    callbacks during the run, whose loop never indexes out of range. *)
Theorem execute_returns_when_no_callback_panics (s : state) :
  executed s = 0 -> registry_safe (exitfuncs s) = true ->
  let '(r, s', _) := execute s in r = Ok tt /\ Wait_returns s' = true.
Proof.
  intros He Hs. rewrite execute_first by exact He.
  destruct (execute_loop _ _) as [[r1 s1] t1] eqn:Hl.
  pose proof (execute_loop_safe _ (set_ctx_cancelled true (set_executed 1 s)) _ _ _
                (le_n _) Hs Hl) as ->.
  split; reflexivity.
Qed.

(** ** Init *)

(** X11: for init callbacks that do not register init callbacks (those
    modelled here can register exit callbacks only), [Init()] calls the init
    callbacks front to back, each at most once: its calls are a prefix of the
    registry, all of it when it returns normally.  It leaves the registry
    unchanged and has no run-once guard, so a second [Init()] calls the same
    callbacks again. *)
Theorem Init_runs_registry_in_order_again (s : state) :
  let '(r, s', t) := Init s in
  initfuncs s' = initfuncs s /\
  (exists rest, init_calls t ++ rest = initfuncs s) /\
  (r = Ok tt -> init_calls t = initfuncs s) /\
  (let '(r2, _, t2) := Init s' in r2 = Ok tt -> init_calls t2 = initfuncs s).
Proof.
  destruct (Init s) as [[r s'] t] eqn:H.
  destruct (Init_calls _ _ _ _ H) as (I & Hp & Hok).
  split; [exact I|]. split; [exact Hp|]. split; [exact Hok|].
  destruct (Init s') as [[r2 s2] t2] eqn:H2.
  destruct (Init_calls _ _ _ _ H2) as (_ & _ & Hok2). rewrite <- I. exact Hok2.
Qed.

(** X12: for any sequence of [RegisterInitWithPriority] calls on an empty
    init registry followed by [Init()] (init callbacks that do not register
    init callbacks), the init callbacks are called in the
    stable-sorted order of the registrations (a prefix of it, all of it when
    [Init] returns normally): ascending priority, ties in registration order. *)
Theorem init_order_from_registrations (regs : list (Z * func)) (s : state) :
  initfuncs s = [] ->
  let '(r, _, t) := run_ops (map init_reg_op regs ++ [OpInit]) s in
  (exists rest, init_calls t ++ rest = sort_Stable (map reg_entry regs)) /\
  (r = Ok tt ->
     StronglySorted prio_le (init_calls t) /\
     Permutation (map reg_entry regs) (init_calls t) /\
     forall q, filter (prio_is q) (init_calls t) = filter (prio_is q) (map reg_entry regs)).
Proof.
  intros Hi. destruct (run_ops _ _) as [[r s'] t] eqn:H.
  destruct (run_init_regs_then _ _ _ _ _ _ H) as (s1 & H1 & E1).
  rewrite Hi in E1. change [] with (sort_Stable []) in E1.
  rewrite fold_sort_Stable in E1. cbn [app] in E1.
  rewrite run_ops_single in H1. cbn [run_op] in H1.
  destruct (Init_calls _ _ _ _ H1) as (_ & Hp & Hok). rewrite E1 in Hp, Hok.
  split; [exact Hp|]. intros Hr. rewrite (Hok Hr).
  split; [apply sort_Stable_sorted|]. split; [apply sort_Stable_perm|].
  intros q. apply sort_Stable_filter.
Qed.

(** X13: starting with an empty init registry and an [initprio] counter [c]
    that does not overflow, successive [RegisterInit(f1) ... RegisterInit(fn)]
    store the priorities [c+1 .. c+n], and a following [Init()] calls the
    callbacks in registration order (a prefix of them, all when it returns
    normally), for init callbacks that do not register init callbacks. *)
Theorem RegisterInit_sequence_runs_in_order (fs : list func) (s : state) :
  initfuncs s = [] ->
  -2^63 <= initprio s -> initprio s + Z.of_nat (List.length fs) < 2^63 ->
  let '(r, _, t) := run_ops (map OpRegisterInit fs ++ [OpInit]) s in
  (exists rest, init_calls t ++ rest = counter_entries (initprio s) fs) /\
  (r = Ok tt -> init_calls t = counter_entries (initprio s) fs) /\
  map Func (counter_entries (initprio s) fs) = fs.
Proof.
  intros Hi Hlo Hhi. destruct (run_ops _ _) as [[r s'] t] eqn:H.
  apply run_registerinits_then in H; [|rewrite Hi; constructor..|exact Hlo|exact Hhi].
  destruct H as (s1 & H & E1). rewrite Hi in E1. cbn [app] in E1.
  rewrite run_ops_single in H. cbn [run_op] in H.
  destruct (Init_calls _ _ _ _ H) as (_ & Hp & Hok). rewrite E1 in Hp, Hok.
  split; [exact Hp|]. split; [exact Hok|]. apply counter_entries_funcs.
Qed.

(** * Witnesses of the further properties at concrete inputs *)

Definition two_entry_registry : state :=
  set_exitfuncs [{| Func := Some [Write "a"]; Prio := 1 |}; {| Func := Some [Write "c"]; Prio := 3 |}]
    initial_state.

Lemma OnExitWithPriority_inserts_witness :
  StronglySorted prio_le (exitfuncs two_entry_registry) /\
  exists l1 l2,
    exitfuncs two_entry_registry = l1 ++ l2 /\
    OnExitWithPriority 2 (Some [Write "b"]) two_entry_registry =
      (Ok tt, set_exitfuncs (l1 ++ {| Func := Some [Write "b"]; Prio := 2 |} :: l2)
                two_entry_registry, []) /\
    Forall (fun z => Prio z <= 2) l1 /\ Forall (fun z => 2 < Prio z) l2.
Proof.
  assert (Hs : StronglySorted prio_le (exitfuncs two_entry_registry)).
  { unfold two_entry_registry. cbn [exitfuncs set_exitfuncs].
    repeat constructor; unfold prio_le; cbn; lia. }
  split; [exact Hs|].
  exact (OnExitWithPriority_inserts_after_lower_or_equal 2 [Write "b"] two_entry_registry Hs).
Defined.

Definition three_callbacks : list func := [Some [Write "a"]; Some [Write "b"]; Some [Write "c"]].

Lemma OnExit_sequence_witness :
  executed initial_state = 0 /\ exitfuncs initial_state = [] /\
  -2^63 <= priority initial_state /\
  priority initial_state + Z.of_nat (List.length three_callbacks) < 2^63 /\
  forallb no_exit_registration three_callbacks = true /\
  (let '(r, _, t) := run_ops (map OpOnExit three_callbacks ++ [OpExecute]) initial_state in
   (exists rest, exit_calls t ++ rest = rev (counter_entries (priority initial_state) three_callbacks)) /\
   (r = Ok tt -> exit_calls t = rev (counter_entries (priority initial_state) three_callbacks))).
Proof.
  assert (H1 : executed initial_state = 0) by reflexivity.
  assert (H2 : exitfuncs initial_state = []) by reflexivity.
  assert (H3 : -2^63 <= priority initial_state) by (cbn; lia).
  assert (H4 : priority initial_state + Z.of_nat (List.length three_callbacks) < 2^63) by (cbn; lia).
  assert (H5 : forallb no_exit_registration three_callbacks = true) by reflexivity.
  split; [exact H1|]. split; [exact H2|]. split; [exact H3|]. split; [exact H4|].
  split; [exact H5|].
  exact (OnExit_sequence_runs_latest_first three_callbacks initial_state H1 H2 H3 H4 H5).
Defined.

Definition counter_at_max : state := set_priority (2^63 - 1) one_registered.

Lemma OnExit_priority_wraps_witness :
  priority counter_at_max = 2^63 - 1 /\
  Forall (fun z => -2^63 < Prio z) (exitfuncs counter_at_max) /\
  executed counter_at_max = 0 /\
  forallb (fun pf => no_exit_registration (Func pf)) (exitfuncs counter_at_max) = true /\
  no_exit_registration (Some [Write "w"]) = true /\
  res_of (run_ops [OpOnExit (Some [Write "w"]); OpExecute] counter_at_max) = Ok tt /\
  (exists l,
     Permutation ({| Func := Some [Write "w"]; Prio := -2^63 |} :: exitfuncs counter_at_max) l /\
     OnExit (Some [Write "w"]) counter_at_max =
       (Ok tt, set_exitfuncs l (set_priority (-2^63) counter_at_max), [])) /\
  (let '(r, _, t) := run_ops [OpOnExit (Some [Write "w"]); OpExecute] counter_at_max in
   r = Ok tt -> exists t0, exit_calls t = t0 ++ [{| Func := Some [Write "w"]; Prio := -2^63 |}]).
Proof.
  assert (H1 : priority counter_at_max = 2^63 - 1) by reflexivity.
  assert (H2 : Forall (fun z => -2^63 < Prio z) (exitfuncs counter_at_max)).
  { vm_compute. repeat constructor. }
  assert (H3 : executed counter_at_max = 0) by (vm_compute; reflexivity).
  assert (H4 : forallb (fun pf => no_exit_registration (Func pf)) (exitfuncs counter_at_max) = true)
    by (vm_compute; reflexivity).
  assert (H5 : no_exit_registration (Some [Write "w"]) = true) by reflexivity.
  split; [exact H1|]. split; [exact H2|]. split; [exact H3|]. split; [exact H4|].
  split; [exact H5|]. split; [vm_compute; reflexivity|].
  destruct (OnExit_priority_wraps_to_last [Write "w"] counter_at_max H1) as [A B].
  split; [exact A|]. exact (B H2 H3 H4 H5).
Defined.

Lemma execute_cancels_context_witness :
  executed one_registered = 0 /\
  (let '(_, s', t) := execute one_registered in
   (exists t', t = EvCancel :: t') /\ ctx_cancelled s' = true /\ executed s' = 1).
Proof.
  assert (H : executed one_registered = 0) by (vm_compute; reflexivity).
  split; [exact H|]. exact (execute_cancels_context_first one_registered H).
Defined.

Definition panicking_registry : state :=
  st_of (run_ops [OpOnExitWithPriority 1 (Some [Write "1"]);
                  OpOnExitWithPriority 2 (Some [Panic "boom"])] initial_state).

Lemma execute_panic_is_final_witness :
  executed panicking_registry = 0 /\ executech_closed panicking_registry = false /\
  execute panicking_registry =
    (Panicking "boom", st_of (execute panicking_registry), tr_of (execute panicking_registry)) /\
  executed (st_of (execute panicking_registry)) = 1 /\
  forall ops, exit_calls (tr_of (run_ops ops (st_of (execute panicking_registry)))) = [] /\
              Wait_returns (st_of (run_ops ops (st_of (execute panicking_registry)))) = false.
Proof.
  assert (H1 : executed panicking_registry = 0) by (vm_compute; reflexivity).
  assert (H2 : executech_closed panicking_registry = false) by (vm_compute; reflexivity).
  assert (H3 : execute panicking_registry =
    (Panicking "boom", st_of (execute panicking_registry), tr_of (execute panicking_registry)))
    by (vm_compute; reflexivity).
  split; [exact H1|]. split; [exact H2|]. split; [exact H3|].
  exact (execute_panic_is_final panicking_registry _ "boom" _ H1 H2 H3).
Defined.

Definition reentrant_registry : state :=
  st_of (run_ops [OpOnExitWithPriority 1 (Some [Write "x"]);
                  OpOnExitWithPriority 2 (Some [CallOnExitWithPriority 0 (Some [Write "y"])])]
           initial_state).

Lemma execute_returns_witness :
  executed reentrant_registry = 0 /\ registry_safe (exitfuncs reentrant_registry) = true /\
  (let '(r, s', _) := execute reentrant_registry in r = Ok tt /\ Wait_returns s' = true).
Proof.
  assert (H1 : executed reentrant_registry = 0) by (vm_compute; reflexivity).
  assert (H2 : registry_safe (exitfuncs reentrant_registry) = true) by (vm_compute; reflexivity).
  split; [exact H1|]. split; [exact H2|].
  exact (execute_returns_when_no_callback_panics reentrant_registry H1 H2).
Defined.

Definition init_regs : list (Z * func) :=
  [(2, Some [Write "a"]); (1, Some [Write "b"]); (2, Some [Write "c"]); (1, Some [Write "d"])].

Lemma init_order_witness :
  initfuncs initial_state = [] /\
  (let '(r, _, t) := run_ops (map init_reg_op init_regs ++ [OpInit]) initial_state in
   (exists rest, init_calls t ++ rest = sort_Stable (map reg_entry init_regs)) /\
   (r = Ok tt ->
      StronglySorted prio_le (init_calls t) /\
      Permutation (map reg_entry init_regs) (init_calls t) /\
      forall q, filter (prio_is q) (init_calls t) = filter (prio_is q) (map reg_entry init_regs))).
Proof.
  assert (H : initfuncs initial_state = []) by reflexivity.
  split; [exact H|]. exact (init_order_from_registrations init_regs initial_state H).
Defined.

Lemma RegisterInit_sequence_witness :
  initfuncs initial_state = [] /\
  -2^63 <= initprio initial_state /\
  initprio initial_state + Z.of_nat (List.length three_callbacks) < 2^63 /\
  (let '(r, _, t) := run_ops (map OpRegisterInit three_callbacks ++ [OpInit]) initial_state in
   (exists rest, init_calls t ++ rest = counter_entries (initprio initial_state) three_callbacks) /\
   (r = Ok tt -> init_calls t = counter_entries (initprio initial_state) three_callbacks) /\
   map Func (counter_entries (initprio initial_state) three_callbacks) = three_callbacks).
Proof.
  assert (H1 : initfuncs initial_state = []) by reflexivity.
  assert (H2 : -2^63 <= initprio initial_state) by (cbn; lia).
  assert (H3 : initprio initial_state + Z.of_nat (List.length three_callbacks) < 2^63) by (cbn; lia).
  split; [exact H1|]. split; [exact H2|]. split; [exact H3|].
  exact (RegisterInit_sequence_runs_in_order three_callbacks initial_state H1 H2 H3).
Defined.
